(** * substrate/kafka: the ordered acknowledgment protocol

    A shallow embedding of [kafka/kafka.go]: the consumer's select loop
    ([ConsumeMessages]), the publisher's select loop together with its
    forwarding goroutine ([PublishMessages], [doPublishMessages]) and the two
    configuration builders.

    The Go [select] statement is resolved by a schedule: a list of events, each
    saying which case of the select fired and what the environment supplied
    there (the broker's message, the caller's acknowledgment, the broker's
    error).  The broker client (sarama, sarama-cluster) is an external
    collaborator; its answers are inputs of the model. *)

From Stdlib Require Import ZArith String.
From stdpp Require Import base decidable option list sorting strings.

(** ** Shared types *)

(** [[]byte] *)
Definition bytes := list Byte.byte.

#[global] Instance byte_eq_dec : EqDecision Byte.byte := Byte.byte_eq_dec.

(** A value of the interface type [substrate.Message].  Interface values are
    compared by dynamic type and, for pointers, by address: the content of the
    message plays no part.  [Handle p] is a [*consumerMessage] whose address is
    [p]; [Foreign id] is a value of any other implementation. *)
Inductive Message :=
| NilMessage
| Handle (p : nat)
| Foreign (id : nat).

#[global] Instance Message_eq_dec : EqDecision Message.
Proof. solve_decision. Defined.

(** A value of Go's [error] interface; [option GoError] is a possibly nil
    error.  [BrokerError] stands for whatever the broker client reports (the
    code names the error), [InvalidAckError] is [substrate.InvalidAckError]. *)
Inductive GoError :=
| BrokerError (code : nat)
| InvalidAckError (Acked Expected : Message).

#[global] Instance GoError_eq_dec : EqDecision GoError.
Proof. solve_decision. Defined.

(** The broker client's possibly nil error, as a Go [error]. *)
Definition brokerErr (o : option nat) : option GoError := BrokerError <$> o.

(** ** The consumer: [AsyncMessageSource.ConsumeMessages] *)
Module Consumer.

(** [sarama.ConsumerMessage], the fields the code and the broker's
    [MarkOffset] read. *)
Record ConsumerMessage := mkConsumerMessage {
  Topic : string;
  Partition : Z;
  Offset : Z;
  Value : bytes
}.

#[global] Instance ConsumerMessage_eq_dec : EqDecision ConsumerMessage.
Proof. solve_decision. Defined.

(** The [cluster.Consumer] as the code sees it: whether
    [NewConsumerFromClient] fails, and what the [k]-th call of [c.Close()]
    returns. *)
Record Collaborator := mkCollaborator {
  NewConsumerErr : option nat;
  Close : nat -> option nat
}.

(** Which case of the inner select (lines 229-233) fired. *)
Inductive InnerSelect :=
| CtxDoneWins
| SendWins.

(** Which case of the outer select (lines 222-257) fired.  The broker's
    channels are taken to be open while the loop runs, so [msg] is a real
    message and [err] a real error. *)
Inductive Event :=
| Msg (msg : ConsumerMessage) (inner : InnerSelect)
| Ack (ack : Message)
| Err (code : nat)
| Done.

(** The session's state.  [heap] holds the [consumerMessage] objects
    allocated so far (the object at address [p] wraps [heap !! p]);
    [forAcking] is the slice of line 219.  The other fields are histories of
    what the loop did to the outside: the values sent on [messages], the
    values taken from [acks], those of them that reached the default branch,
    the arguments of [c.MarkOffset], and the number of [c.Close()] calls. *)
Record State := mkState {
  heap : list ConsumerMessage;
  forAcking : list nat;
  delivered : list Message;
  received : list Message;
  accepted : list Message;
  marked : list ConsumerMessage;
  closes : nat
}.

(** The state on entry: [h0] are the [consumerMessage] objects that exist
    already (from earlier sessions); the slice is nil. *)
Definition init (h0 : list ConsumerMessage) : State :=
  mkState h0 [] [] [] [] [] 0.

(** [message := &consumerMessage{cm: msg}] *)
Definition alloc (msg : ConsumerMessage) (s : State) : nat * State :=
  (length (heap s),
   mkState (heap s ++ [msg]) (forAcking s) (delivered s) (received s)
           (accepted s) (marked s) (closes s)).

(** [messages <- message] *)
Definition send (m : Message) (s : State) : State :=
  mkState (heap s) (forAcking s) (delivered s ++ [m]) (received s)
          (accepted s) (marked s) (closes s).

(** [forAcking = append(forAcking, message)] *)
Definition append (p : nat) (s : State) : State :=
  mkState (heap s) (forAcking s ++ [p]) (delivered s) (received s)
          (accepted s) (marked s) (closes s).

(** [ack := <-acks] *)
Definition recvAck (ack : Message) (s : State) : State :=
  mkState (heap s) (forAcking s) (delivered s) (received s ++ [ack])
          (accepted s) (marked s) (closes s).

(** [c.MarkOffset(cm, "")], issued for the acknowledgment [ack]. *)
Definition MarkOffset (ack : Message) (cm : ConsumerMessage) (s : State) : State :=
  mkState (heap s) (forAcking s) (delivered s) (received s)
          (accepted s ++ [ack]) (marked s ++ [cm]) (closes s).

(** [forAcking = forAcking[1:]] *)
Definition dropHead (s : State) : State :=
  mkState (heap s) (drop 1 (forAcking s)) (delivered s) (received s)
          (accepted s) (marked s) (closes s).

(** [c.Close()]: the call is counted; its result is [Close c (closes s)]. *)
Definition close (s : State) : State :=
  mkState (heap s) (forAcking s) (delivered s) (received s)
          (accepted s) (marked s) (S (closes s)).

(** What one iteration of the loop, or the whole call, comes to.  [Panicked]
    is a nil dereference of [forAcking[0].cm]. *)
Inductive Outcome :=
| Running (s : State)
| Returned (s : State) (rerr : option GoError)
| Panicked (s : State).

(** One iteration of the [for] loop, lines 222-257. *)
Definition step (c : Collaborator) (s : State) (ev : Event) : Outcome :=
  match ev with
  | Msg msg inner =>
      let '(p, s1) := alloc msg s in
      match inner with
      | CtxDoneWins => Returned (close s1) (brokerErr (Close c (closes s1)))
      | SendWins => Running (append p (send (Handle p) s1))
      end
  | Ack ack =>
      let s1 := recvAck ack s in
      match forAcking s1 with
      | [] => Returned s1 (Some (InvalidAckError ack NilMessage))
      | head :: _ =>
          if decide (ack <> Handle head) then
            Returned s1 (Some (InvalidAckError ack (Handle head)))
          else
            match heap s1 !! head with
            | Some cm => Running (dropHead (MarkOffset ack cm s1))
            | None => Panicked s1
            end
      end
  | Err code => Returned s (Some (BrokerError code))
  | Done => Returned (close s) (brokerErr (Close c (closes s)))
  end.

(** The [for] loop under a schedule; an exhausted schedule leaves the loop
    blocked in its select. *)
Fixpoint loop (c : Collaborator) (s : State) (evs : list Event) : Outcome :=
  match evs with
  | [] => Running s
  | ev :: evs' =>
      match step c s ev with
      | Running s' => loop c s' evs'
      | out => out
      end
  end.

(** The deferred [c.Close()] of lines 215-217, run when the function leaves. *)
Definition deferred (out : Outcome) : Outcome :=
  match out with
  | Running s => Running s
  | Returned s rerr => Returned (close s) rerr
  | Panicked s => Panicked (close s)
  end.

(** The call from the state [s] on: the loop, then the deferred close. *)
Definition consumeFrom (c : Collaborator) (s : State) (evs : list Event) : Outcome :=
  deferred (loop c s evs).

(** [ConsumeMessages], lines 208-259. *)
Definition ConsumeMessages (c : Collaborator) (h0 : list ConsumerMessage)
    (evs : list Event) : Outcome :=
  match NewConsumerErr c with
  | Some code => Returned (init h0) (Some (BrokerError code))
  | None => consumeFrom c (init h0) evs
  end.

(** The state an outcome carries, and the error a finished call returned. *)
Definition stateOf (out : Outcome) : State :=
  match out with
  | Running s | Returned s _ | Panicked s => s
  end.

Definition errorOf (out : Outcome) : option GoError :=
  match out with
  | Returned _ rerr => rerr
  | _ => None
  end.

(** The method [Data] of [consumerMessage], lines 203-205. *)
Definition Data (s : State) (p : nat) : option bytes :=
  Value <$> heap s !! p.

(** The broker message a [substrate.Message] wraps, when it is a
    [consumerMessage] of this heap. *)
Definition cmOf (h : list ConsumerMessage) (m : Message) : option ConsumerMessage :=
  match m with
  | Handle p => h !! p
  | _ => None
  end.

(** The broker messages behind the values sent on [messages], in order. *)
Definition deliveredCMs (s : State) : list ConsumerMessage :=
  omap (cmOf (heap s)) (delivered s).

(** Offsets grow strictly within each partition of each topic. *)
Definition before (a b : ConsumerMessage) : Prop :=
  Topic a = Topic b -> Partition a = Partition b -> (Offset a < Offset b)%Z.

Definition increasingPerPartition (l : list ConsumerMessage) : Prop :=
  StronglySorted before l.

#[global] Instance before_dec : RelDecision before.
Proof. intros a b. unfold before. apply _. Defined.

#[global] Instance increasingPerPartition_dec l : Decision (increasingPerPartition l).
Proof. unfold increasingPerPartition. apply _. Defined.

(** *** The invariant of the loop *)

(** What holds of every state the loop reaches: the values sent to the caller
    are the accepted acknowledgments followed by the ledger, every one of
    them is a distinct live [consumerMessage], and there is one [MarkOffset]
    per accepted acknowledgment, for the broker message it wraps. *)
Record Inv (s : State) : Prop := mkInv {
  inv_ledger : delivered s = accepted s ++ (Handle <$> forAcking s);
  inv_live : Forall (fun m => exists p, m = Handle p /\ p < length (heap s)) (delivered s);
  inv_nodup : NoDup (delivered s);
  inv_marked : Forall2 (fun a cm => cmOf (heap s) a = Some cm) (accepted s) (marked s)
}.

(** Every acknowledgment taken from [acks] so far was accepted. *)
Definition allAccepted (s : State) : Prop := received s = accepted s.

(** *** Lemmas on the loop *)

Lemma cmOf_grow h msg a cm : cmOf h a = Some cm -> cmOf (h ++ [msg]) a = Some cm.
Proof.
  destruct a as [|p|id]; simpl; try discriminate.
  intros Hp. by apply lookup_app_l_Some.
Qed.

Lemma Inv_init h0 : Inv (init h0).
Proof.
  split; simpl.
  - reflexivity.
  - constructor.
  - constructor.
  - constructor.
Qed.

Lemma Inv_close s : Inv s -> Inv (close s).
Proof. intros [H1 H2 H3 H4]. by split. Qed.

Lemma Inv_alloc msg s : Inv s -> Inv (alloc msg s).2.
Proof.
  intros [H1 H2 H3 H4]. split; simpl; try done.
  - eapply Forall_impl; [exact H2|].
    intros m (p & -> & Hp). exists p. split; [done|].
    rewrite length_app. simpl. lia.
  - eapply Forall2_impl; [exact H4|]. intros a cm. apply cmOf_grow.
Qed.

Lemma Inv_deliver msg s :
  Inv s -> Inv (append (length (heap s)) (send (Handle (length (heap s))) (alloc msg s).2)).
Proof.
  intros HI. destruct (Inv_alloc msg s HI) as [H1 H2 H3 H4].
  destruct HI as [_ H2' _ _]. simpl in *.
  split; simpl.
  - rewrite fmap_app, H1. simpl. by rewrite app_assoc.
  - apply Forall_app. split; [done|].
    apply Forall_singleton. exists (length (heap s)). split; [done|].
    rewrite length_app. simpl. lia.
  - apply NoDup_app. split; [done|]. split; [|apply NoDup_singleton].
    intros m Hm Hin. apply list_elem_of_singleton in Hin. subst m.
    rewrite Forall_forall in H2'. destruct (H2' _ Hm) as (p & Heq & Hp).
    injection Heq as Heq. lia.
  - done.
Qed.

Lemma Inv_recvAck ack s : Inv s -> Inv (recvAck ack s).
Proof. intros [H1 H2 H3 H4]. by split. Qed.

Lemma Inv_head_live s head tl :
  Inv s -> forAcking s = head :: tl -> is_Some (heap s !! head).
Proof.
  intros [H1 H2 _ _] Hf. apply lookup_lt_is_Some.
  rewrite Forall_forall in H2.
  destruct (H2 (Handle head)) as (p & Heq & Hp).
  - rewrite H1, Hf. simpl. apply elem_of_app. right. left.
  - by injection Heq as ->.
Qed.

Lemma Inv_accept s head tl cm :
  Inv s -> forAcking s = head :: tl -> heap s !! head = Some cm ->
  Inv (dropHead (MarkOffset (Handle head) cm s)).
Proof.
  intros [H1 H2 H3 H4] Hf Hcm. split; simpl; try done.
  - rewrite H1, Hf. simpl. by rewrite <- app_assoc.
  - apply Forall2_app; [done|]. by apply Forall2_cons.
Qed.

(** An iteration keeps the invariant, and never dereferences nil. *)
Lemma step_Inv c s ev :
  Inv s ->
  match step c s ev with
  | Running s' | Returned s' _ => Inv s'
  | Panicked _ => False
  end.
Proof.
  intros HI. destruct ev as [msg [|]|ack|code|]; simpl.
  - apply Inv_close. by apply (Inv_alloc msg s).
  - by apply Inv_deliver.
  - destruct (forAcking s) as [|head tl] eqn:Hf.
    + by apply Inv_recvAck.
    + destruct (decide (ack <> Handle head)) as [Hne|Heq].
      * by apply Inv_recvAck.
      * apply dec_stable in Heq. subst ack.
        destruct (Inv_head_live s head tl HI Hf) as [cm Hcm]. simpl.
        rewrite Hcm.
        apply (Inv_accept (recvAck (Handle head) s) head tl cm); try done.
        by apply Inv_recvAck.
  - done.
  - by apply Inv_close.
Qed.

Lemma loop_Inv c evs : forall s,
  Inv s ->
  match loop c s evs with
  | Running s' | Returned s' _ => Inv s'
  | Panicked _ => False
  end.
Proof.
  induction evs as [|ev evs IH]; intros s HI; simpl; [done|].
  pose proof (step_Inv c s ev HI) as Hs.
  destruct (step c s ev) as [s'|s' r|s']; [by apply IH|done|done].
Qed.

Lemma consumeFrom_Inv c s evs :
  Inv s ->
  match consumeFrom c s evs with
  | Running s' | Returned s' _ => Inv s'
  | Panicked _ => False
  end.
Proof.
  intros HI. unfold consumeFrom. pose proof (loop_Inv c evs s HI) as Hl.
  destruct (loop c s evs) as [s'|s' r|s']; simpl; [done| by apply Inv_close | done].
Qed.

Lemma ConsumeMessages_Inv c h0 evs :
  match ConsumeMessages c h0 evs with
  | Running s' | Returned s' _ => Inv s'
  | Panicked _ => False
  end.
Proof.
  unfold ConsumeMessages. destruct (NewConsumerErr c).
  - apply Inv_init.
  - apply consumeFrom_Inv, Inv_init.
Qed.

(** The call never panics. *)
Lemma ConsumeMessages_Inv_state c h0 evs : Inv (stateOf (ConsumeMessages c h0 evs)).
Proof.
  pose proof (ConsumeMessages_Inv c h0 evs) as H.
  by destruct (ConsumeMessages c h0 evs).
Qed.

(** Unless an acknowledgment is rejected, all of them were accepted. *)
Definition notRejected (out : Outcome) : Prop :=
  forall a e, errorOf out <> Some (InvalidAckError a e).

Lemma step_allAccepted c s ev :
  Inv s -> allAccepted s ->
  notRejected (step c s ev) -> allAccepted (stateOf (step c s ev)).
Proof.
  unfold allAccepted, notRejected. intros HI Ha Hn.
  destruct ev as [msg [|]|ack|code|]; simpl in *; try done.
  destruct (forAcking s) as [|head tl] eqn:Hf; simpl in *.
  - by destruct (Hn ack NilMessage).
  - destruct (decide (ack <> Handle head)) as [Hne|Heq]; simpl in *.
    + by destruct (Hn ack (Handle head)).
    + destruct (heap s !! head) as [cm|] eqn:Hcm; simpl.
      * by rewrite Ha.
      * destruct (Inv_head_live s head tl HI Hf) as [cm' Hcm']. congruence.
Qed.

Lemma loop_allAccepted c evs : forall s,
  Inv s -> allAccepted s ->
  notRejected (loop c s evs) -> allAccepted (stateOf (loop c s evs)).
Proof.
  induction evs as [|ev evs IH]; intros s HI Ha Hn; simpl in *; [done|].
  pose proof (step_Inv c s ev HI) as Hs.
  pose proof (step_allAccepted c s ev HI Ha) as Hs'.
  destruct (step c s ev) as [s'|s' r|s'] eqn:Hst; simpl in *.
  - apply IH; try done. apply Hs'. intros a e. done.
  - by apply Hs'.
  - done.
Qed.

Lemma deferred_stateOf_fields out :
  (received (stateOf (deferred out)) = received (stateOf out)) /\
  (accepted (stateOf (deferred out)) = accepted (stateOf out)) /\
  (delivered (stateOf (deferred out)) = delivered (stateOf out)) /\
  (marked (stateOf (deferred out)) = marked (stateOf out)) /\
  (forAcking (stateOf (deferred out)) = forAcking (stateOf out)) /\
  (heap (stateOf (deferred out)) = heap (stateOf out)) /\
  errorOf (deferred out) = errorOf out.
Proof. by destruct out. Qed.

Lemma ConsumeMessages_allAccepted c h0 evs :
  notRejected (ConsumeMessages c h0 evs) ->
  allAccepted (stateOf (ConsumeMessages c h0 evs)).
Proof.
  unfold ConsumeMessages, consumeFrom. destruct (NewConsumerErr c) as [code|]; [done|].
  intros Hn. unfold allAccepted, notRejected in *.
  destruct (deferred_stateOf_fields (loop c (init h0) evs)) as (-> & -> & _ & _ & _ & _ & He).
  apply loop_allAccepted; [apply Inv_init|done|].
  intros a e. rewrite <- He. apply Hn.
Qed.



(** *** The sessions used as examples *)

(** A broker whose consumer opens and closes without error. *)
Definition quietBroker : Collaborator := mkCollaborator None (fun _ => None).

(** A broker whose consumer fails to close. *)
Definition failingClose : Collaborator := mkCollaborator None (fun _ => Some 7).

(** Three messages of partition 0 with the same payload, and a redelivery of
    the first (as after a rebalance of the consumer group). *)
Definition m1 : ConsumerMessage := mkConsumerMessage "t" 0 5 [].
Definition m2 : ConsumerMessage := mkConsumerMessage "t" 0 6 [].
Definition m3 : ConsumerMessage := mkConsumerMessage "t" 0 7 [].

Definition inOrder : list Event :=
  [Msg m1 SendWins; Msg m2 SendWins; Msg m3 SendWins;
   Ack (Handle 0); Ack (Handle 1); Ack (Handle 2)].


(** *** The scenarios of the specification *)

(** Three deliveries acknowledged in order: three commits in order, an empty
    ledger, and the loop still running. *)
Example scenario_in_order :
  exists s, ConsumeMessages quietBroker [] inOrder = Running s /\
            marked s = [m1; m2; m3] /\ forAcking s = [].
Proof. eexists. split; [vm_compute; reflexivity|]. split; reflexivity. Qed.

(** Two deliveries, the second acknowledged first: the call ends with
    [InvalidAckError{Acked: m2, Expected: m1}] and commits nothing. *)
Example scenario_out_of_order :
  errorOf (ConsumeMessages quietBroker [] [Msg m1 SendWins; Msg m2 SendWins; Ack (Handle 1)])
    = Some (InvalidAckError (Handle 1) (Handle 0)) /\
  marked (stateOf (ConsumeMessages quietBroker []
                     [Msg m1 SendWins; Msg m2 SendWins; Ack (Handle 1)])) = [].
Proof. split; vm_compute; reflexivity. Qed.

(** No delivery, one acknowledgment. *)
Example scenario_nothing_delivered :
  errorOf (ConsumeMessages quietBroker [] [Ack (Foreign 1)])
    = Some (InvalidAckError (Foreign 1) NilMessage).
Proof. reflexivity. Qed.

(** Cancellation with one delivery unacknowledged, the close succeeding: the
    call returns nil and nothing was committed. *)
Example scenario_cancelled :
  ConsumeMessages quietBroker [] [Msg m1 SendWins; Done]
    = Returned (close (close (stateOf (loop quietBroker (init []) [Msg m1 SendWins])))) None /\
  marked (stateOf (ConsumeMessages quietBroker [] [Msg m1 SendWins; Done])) = [].
Proof. split; vm_compute; reflexivity. Qed.

(** *** The claims *)

(** C1. For every session and every schedule: if no acknowledgment is
    rejected (the call does not end in an [InvalidAckError]), the sequence of
    acknowledgments taken from [acks] is a prefix of the sequence of messages
    sent on [messages], in the same order; all of them were accepted, and the
    delivered handles are pairwise distinct. *)
Theorem acknowledged_prefix_of_delivered c h0 evs :
  notRejected (ConsumeMessages c h0 evs) ->
  received (stateOf (ConsumeMessages c h0 evs))
    `prefix_of` delivered (stateOf (ConsumeMessages c h0 evs)) /\
  allAccepted (stateOf (ConsumeMessages c h0 evs)) /\
  NoDup (delivered (stateOf (ConsumeMessages c h0 evs))).
Proof.
  intros Hn.
  pose proof (ConsumeMessages_allAccepted c h0 evs Hn) as Ha.
  destruct (ConsumeMessages_Inv_state c h0 evs) as [H1 _ H3 _].
  repeat split; [|done|done].
  rewrite Ha, H1. by eexists.
Qed.

Lemma acknowledged_prefix_of_delivered_witness :
  notRejected (ConsumeMessages quietBroker [] [Msg m1 SendWins; Msg m2 SendWins; Ack (Handle 0)]) /\
  [Handle 0] `prefix_of` [Handle 0; Handle 1].
Proof.
  assert (Hn : notRejected
    (ConsumeMessages quietBroker [] [Msg m1 SendWins; Msg m2 SendWins; Ack (Handle 0)])).
  { intros a e. vm_compute. discriminate. }
  split; [exact Hn|].
  exact (proj1 (acknowledged_prefix_of_delivered quietBroker [] _ Hn)).
Defined.




(** The session after two deliveries of equal content, none acknowledged. *)
Definition twoPending : State :=
  stateOf (loop quietBroker (init []) [Msg m1 SendWins; Msg m1 SendWins]).

(** C3. In every state whose ledger is not empty, an acknowledgment that is
    not the very handle at the head of the ledger (whatever its content) ends
    the call with [InvalidAckError] carrying the acknowledged value and the
    head; nothing later in the schedule is served, and no [MarkOffset] is
    issued for it. *)
Theorem mismatched_ack_rejected c s ack head tl more :
  forAcking s = head :: tl ->
  ack <> Handle head ->
  consumeFrom c s (Ack ack :: more) =
    Returned (close (recvAck ack s)) (Some (InvalidAckError ack (Handle head))) /\
  marked (stateOf (consumeFrom c s (Ack ack :: more))) = marked s /\
  accepted (stateOf (consumeFrom c s (Ack ack :: more))) = accepted s /\
  forAcking (stateOf (consumeFrom c s (Ack ack :: more))) = head :: tl.
Proof.
  intros Hf Hne.
  assert (Hout : consumeFrom c s (Ack ack :: more) =
    Returned (close (recvAck ack s)) (Some (InvalidAckError ack (Handle head)))).
  { unfold consumeFrom. simpl. rewrite Hf. by rewrite decide_True. }
  rewrite Hout. simpl. by rewrite Hf.
Qed.

Lemma mismatched_ack_rejected_witness :
  (forAcking twoPending = [0; 1] /\ Handle 1 <> Handle 0 /\
   Data twoPending 1 = Data twoPending 0) /\
  errorOf (consumeFrom quietBroker twoPending [Ack (Handle 1)]) =
    Some (InvalidAckError (Handle 1) (Handle 0)) /\
  marked (stateOf (consumeFrom quietBroker twoPending [Ack (Handle 1)])) = [].
Proof.
  assert (Hf : forAcking twoPending = [0; 1]) by reflexivity.
  assert (Hne : Handle 1 <> Handle 0) by discriminate.
  split; [by repeat split|].
  destruct (mismatched_ack_rejected quietBroker twoPending (Handle 1) 0 [1] [] Hf Hne)
    as (Hout & Hm & _).
  split; [by rewrite Hout | exact Hm].
Defined.

(** C4. In every state whose ledger is empty, any acknowledgment ends the
    call with [InvalidAckError] whose [Acked] is the value received and whose
    [Expected] is nil; no [MarkOffset] is issued. *)
Theorem ack_on_empty_ledger_rejected c s ack more :
  forAcking s = [] ->
  consumeFrom c s (Ack ack :: more) =
    Returned (close (recvAck ack s)) (Some (InvalidAckError ack NilMessage)) /\
  marked (stateOf (consumeFrom c s (Ack ack :: more))) = marked s /\
  accepted (stateOf (consumeFrom c s (Ack ack :: more))) = accepted s.
Proof.
  intros Hf.
  assert (Hout : consumeFrom c s (Ack ack :: more) =
    Returned (close (recvAck ack s)) (Some (InvalidAckError ack NilMessage))).
  { unfold consumeFrom. simpl. by rewrite Hf. }
  by rewrite Hout.
Qed.

Lemma ack_on_empty_ledger_rejected_witness :
  forAcking (init []) = [] /\
  ConsumeMessages quietBroker [] [Ack (Foreign 1)] =
    Returned (close (recvAck (Foreign 1) (init [])))
             (Some (InvalidAckError (Foreign 1) NilMessage)).
Proof.
  split; [reflexivity|].
  exact (proj1 (ack_on_empty_ledger_rejected quietBroker (init []) (Foreign 1) []
                  eq_refl)).
Defined.

(** C5, as the claim has it, fails: the call returns what [c.Close()] returns
    (lines 231 and 256), so a failing close makes the cancelled call return
    an error. *)
Lemma cancellation_returns_close_error :
  ConsumeMessages failingClose [] [Done] =
    Returned (close (close (init []))) (Some (BrokerError 7)) /\
  errorOf (ConsumeMessages failingClose [] [Done]) <> None /\
  errorOf (ConsumeMessages failingClose [] [Msg m1 CtxDoneWins]) <> None.
Proof.
  split; [reflexivity|]. split; vm_compute; discriminate.
Qed.

(** C5, amended. When the context wins the inner select, the message at hand
    is neither sent on [messages] nor appended to the ledger; and on both
    cancellation paths the call closes the broker's consumer there (and once
    more on leaving) and returns the result of that close: no error exactly
    when the close reports none. *)
Theorem cancellation_closes_and_returns_close_result c s :
  (forall msg more,
     consumeFrom c s (Msg msg CtxDoneWins :: more) =
       Returned (close (close (alloc msg s).2)) (brokerErr (Close c (closes s))) /\
     forAcking (stateOf (consumeFrom c s (Msg msg CtxDoneWins :: more))) = forAcking s /\
     delivered (stateOf (consumeFrom c s (Msg msg CtxDoneWins :: more))) = delivered s) /\
  (forall more,
     consumeFrom c s (Done :: more) =
       Returned (close (close s)) (brokerErr (Close c (closes s))) /\
     closes (stateOf (consumeFrom c s (Done :: more))) = S (S (closes s))) /\
  (brokerErr (Close c (closes s)) = None <-> Close c (closes s) = None).
Proof.
  split; [|split].
  - intros msg more. unfold consumeFrom. simpl. by repeat split.
  - intros more. unfold consumeFrom. simpl. by split.
  - unfold brokerErr. by destruct (Close c (closes s)).
Qed.

(** *** Further properties of the loop *)

Lemma loop_app c evs evs' : forall s,
  loop c s (evs ++ evs') =
    match loop c s evs with
    | Running s' => loop c s' evs'
    | out => out
    end.
Proof.
  induction evs as [|ev evs IH]; intros s; simpl; [done|].
  destruct (step c s ev); [apply IH|done|done].
Qed.

Lemma ConsumeMessages_Running c h0 evs s :
  ConsumeMessages c h0 evs = Running s ->
  NewConsumerErr c = None /\ loop c (init h0) evs = Running s.
Proof.
  unfold ConsumeMessages, consumeFrom. destruct (NewConsumerErr c); [discriminate|].
  destruct (loop c (init h0) evs); simpl; intros E; by inversion E.
Qed.

(** A schedule that leaves the loop running can be continued. *)
Lemma ConsumeMessages_continue c h0 evs s evs' :
  ConsumeMessages c h0 evs = Running s ->
  Inv s /\ ConsumeMessages c h0 (evs ++ evs') = consumeFrom c s evs'.
Proof.
  intros E. pose proof (ConsumeMessages_Inv_state c h0 evs) as HI. rewrite E in HI.
  split; [done|]. destruct (ConsumeMessages_Running c h0 evs s E) as [Hn Hl].
  unfold ConsumeMessages, consumeFrom. by rewrite Hn, loop_app, Hl.
Qed.

(** An acknowledgment that is not the head of the ledger ends the call. *)
Lemma reject_unless_head c s a more :
  (forall head tl, forAcking s = head :: tl -> a <> Handle head) ->
  exists e,
    consumeFrom c s (Ack a :: more) =
      Returned (close (recvAck a s)) (Some (InvalidAckError a e)).
Proof.
  intros Hne. unfold consumeFrom. simpl.
  destruct (forAcking s) as [|head tl] eqn:Hf.
  - by exists NilMessage.
  - exists (Handle head). by rewrite decide_True by by apply (Hne head tl).
Qed.

(** The ledger is part of what was delivered. *)
Lemma ledger_delivered s head tl :
  Inv s -> forAcking s = head :: tl -> Handle head ∈ delivered s.
Proof.
  intros [H1 _ _ _] Hf. rewrite H1, Hf. apply elem_of_app. right. left.
Qed.

(** What was accepted is no longer in the ledger. *)
Lemma accepted_not_head s head tl a :
  Inv s -> forAcking s = head :: tl -> a ∈ accepted s -> a <> Handle head.
Proof.
  intros [H1 _ H3 _] Hf Ha ->. rewrite H1, Hf in H3.
  apply NoDup_app in H3 as (_ & Hdis & _). apply (Hdis _ Ha). left.
Qed.

(** X1. In-order acknowledgments are always accepted: from a reachable
    state whose ledger starts with [l], acknowledging the handles of [l] one
    after the other keeps the loop running, issues one [MarkOffset] for each,
    in that order and for the broker message the handle wraps, and leaves the
    rest of the ledger. *)
Theorem in_order_acks_accepted c l : forall s rest,
  Inv s -> forAcking s = l ++ rest ->
  exists s' cms,
    loop c s (Ack <$> (Handle <$> l)) = Running s' /\
    forAcking s' = rest /\
    Forall2 (fun p cm => heap s !! p = Some cm) l cms /\
    marked s' = marked s ++ cms /\
    accepted s' = accepted s ++ (Handle <$> l) /\
    delivered s' = delivered s /\
    closes s' = closes s.
Proof.
  induction l as [|p l IH]; intros s rest HI Hf.
  - exists s, []. simpl. rewrite !app_nil_r. repeat split; try done; constructor.
  - destruct (Inv_head_live s p (l ++ rest) HI Hf) as [cm Hcm].
    pose proof (step_Inv c s (Ack (Handle p)) HI) as HI1.
    assert (E : step c s (Ack (Handle p)) =
                Running (dropHead (MarkOffset (Handle p) cm (recvAck (Handle p) s)))).
    { simpl. rewrite Hf. simpl. rewrite decide_False by (intros Hne; by apply Hne).
      by rewrite Hcm. }
    rewrite E in HI1.
    destruct (IH _ rest HI1) as (s' & cms & Hl & Hr & Hc & Hm & Ha & Hd & Hcl).
    { simpl. by rewrite Hf. }
    exists s', (cm :: cms). simpl in *. rewrite Hf. simpl.
    rewrite decide_False by (intros Hne; by apply Hne). rewrite Hcm.
    split; [exact Hl|]. split; [exact Hr|]. split; [by constructor|].
    rewrite Hm, Ha, <- !app_assoc. by repeat split.
Qed.

Lemma in_order_acks_accepted_witness :
  (Inv twoPending /\ forAcking twoPending = [0; 1] ++ []) /\
  exists s', loop quietBroker twoPending [Ack (Handle 0); Ack (Handle 1)] = Running s' /\
             forAcking s' = [] /\ marked s' = [m1; m1].
Proof.
  assert (HI : Inv twoPending).
  { apply (loop_Inv quietBroker [Msg m1 SendWins; Msg m1 SendWins] (init []) (Inv_init [])). }
  split; [by split|].
  destruct (in_order_acks_accepted quietBroker [0; 1] twoPending [] HI eq_refl)
    as (s' & cms & Hl & Hr & Hc & Hm & _).
  exists s'. split; [exact Hl|]. split; [exact Hr|].
  rewrite Hm. apply Forall2_cons_inv_l in Hc as (cm0 & cms0 & E0 & Hc & ->).
  apply Forall2_cons_inv_l in Hc as (cm1 & cms1 & E1 & Hc & ->).
  apply Forall2_nil_inv_l in Hc as ->.
  vm_compute in E0, E1. by injection E0 as <-; injection E1 as <-.
Defined.

(** X2. An acknowledgment is accepted at most once: once a schedule has had
    the acknowledgment [a] accepted and left the loop running, another
    acknowledgment [a], whatever was delivered meanwhile, ends the call with
    an [InvalidAckError] for [a] and commits nothing. *)
Theorem repeated_ack_rejected c h0 evs s a more :
  ConsumeMessages c h0 evs = Running s ->
  a ∈ accepted s ->
  exists e,
    ConsumeMessages c h0 (evs ++ Ack a :: more) =
      Returned (close (recvAck a s)) (Some (InvalidAckError a e)).
Proof.
  intros E Ha. destruct (ConsumeMessages_continue c h0 evs s (Ack a :: more) E) as [HI ->].
  apply reject_unless_head. intros head tl Hf.
  by apply (accepted_not_head s head tl a).
Qed.

Lemma repeated_ack_rejected_witness :
  (ConsumeMessages quietBroker [] [Msg m1 SendWins; Msg m2 SendWins; Ack (Handle 0)]
     = Running (mkState [m1; m2] [1] [Handle 0; Handle 1] [Handle 0] [Handle 0] [m1] 0) /\
   Handle 0 ∈ [Handle 0]) /\
  errorOf (ConsumeMessages quietBroker []
             ([Msg m1 SendWins; Msg m2 SendWins; Ack (Handle 0)] ++ [Ack (Handle 0)]))
    = Some (InvalidAckError (Handle 0) (Handle 1)).
Proof.
  assert (E : ConsumeMessages quietBroker [] [Msg m1 SendWins; Msg m2 SendWins; Ack (Handle 0)]
     = Running (mkState [m1; m2] [1] [Handle 0; Handle 1] [Handle 0] [Handle 0] [m1] 0))
    by reflexivity.
  assert (Ha : Handle 0 ∈ [Handle 0]) by left.
  split; [by split|].
  destruct (repeated_ack_rejected quietBroker [] _ _ (Handle 0) [] E Ha) as [e He].
  rewrite He. simpl. f_equal. f_equal.
  vm_compute in He. by injection He as <-.
Defined.

(** X3. Only what was delivered can be acknowledged: an acknowledgment that
    is none of the values this session sent on [messages] (a foreign value,
    nil, a handle of another session) ends the call with an
    [InvalidAckError] for it. *)
Theorem undelivered_ack_rejected c h0 evs s a more :
  ConsumeMessages c h0 evs = Running s ->
  a ∉ delivered s ->
  exists e,
    ConsumeMessages c h0 (evs ++ Ack a :: more) =
      Returned (close (recvAck a s)) (Some (InvalidAckError a e)).
Proof.
  intros E Ha. destruct (ConsumeMessages_continue c h0 evs s (Ack a :: more) E) as [HI ->].
  apply reject_unless_head. intros head tl Hf ->.
  apply Ha. by apply (ledger_delivered s head tl).
Qed.

Lemma undelivered_ack_rejected_witness :
  (ConsumeMessages quietBroker [m3] [Msg m1 SendWins]
     = Running (mkState [m3; m1] [1] [Handle 1] [] [] [] 0) /\
   Handle 0 ∉ [Handle 1]) /\
  errorOf (ConsumeMessages quietBroker [m3] ([Msg m1 SendWins] ++ [Ack (Handle 0)]))
    = Some (InvalidAckError (Handle 0) (Handle 1)).
Proof.
  assert (E : ConsumeMessages quietBroker [m3] [Msg m1 SendWins]
     = Running (mkState [m3; m1] [1] [Handle 1] [] [] [] 0)) by reflexivity.
  assert (Ha : Handle 0 ∉ [Handle 1]).
  { intros H. apply list_elem_of_singleton in H. discriminate. }
  split; [by split|].
  destruct (undelivered_ack_rejected quietBroker [m3] _ _ (Handle 0) [] E Ha) as [e He].
  rewrite He. simpl. f_equal. f_equal.
  vm_compute in He. by injection He as <-.
Defined.

(** The broker messages of the deliveries a schedule holds: those whose send
    on [messages] won the inner select. *)
Definition arrived (evs : list Event) : list ConsumerMessage :=
  omap (fun ev => match ev with
                  | Msg msg SendWins => Some msg
                  | _ => None
                  end) evs.

Lemma arrived_cons ev evs : arrived (ev :: evs) = arrived [ev] ++ arrived evs.
Proof. unfold arrived. simpl. by destruct ev as [msg [|]| | |]. Qed.

Lemma omap_agree {A B} (f g : A -> option B) l :
  Forall (fun x => f x = g x) l -> omap f l = omap g l.
Proof.
  induction 1 as [|x l Hx _ IH]; simpl; [done|].
  rewrite Hx. destruct (g x); [f_equal|]; exact IH.
Qed.

Lemma deliveredCMs_alloc msg s :
  Inv s -> deliveredCMs (alloc msg s).2 = deliveredCMs s.
Proof.
  intros [_ H2 _ _]. unfold deliveredCMs. simpl. apply omap_agree.
  eapply Forall_impl; [exact H2|]. intros m (p & -> & Hp). simpl.
  by rewrite lookup_app_l.
Qed.

Lemma deliveredCMs_deliver msg s :
  Inv s ->
  deliveredCMs (append (length (heap s)) (send (Handle (length (heap s))) (alloc msg s).2))
    = deliveredCMs s ++ [msg].
Proof.
  intros HI. rewrite <- (deliveredCMs_alloc msg s HI).
  unfold deliveredCMs. simpl. rewrite omap_app. f_equal.
  simpl. by rewrite list_lookup_middle.
Qed.

(** What one iteration adds to the deliveries. *)
Lemma step_deliveredCMs c s ev :
  Inv s ->
  deliveredCMs (stateOf (step c s ev)) =
    deliveredCMs s ++ match step c s ev with
                      | Running _ => arrived [ev]
                      | _ => []
                      end.
Proof.
  intros HI. destruct ev as [msg [|]|ack|code|]; simpl.
  - rewrite app_nil_r. apply (deliveredCMs_alloc msg s HI).
  - apply (deliveredCMs_deliver msg s HI).
  - destruct (forAcking s) as [|head tl]; simpl; [by rewrite app_nil_r|].
    destruct (decide (ack <> Handle head)); simpl; [by rewrite app_nil_r|].
    destruct (heap s !! head); simpl; by rewrite app_nil_r.
  - by rewrite app_nil_r.
  - by rewrite app_nil_r.
Qed.

Lemma loop_deliveredCMs c evs : forall s,
  Inv s ->
  deliveredCMs (stateOf (loop c s evs)) `prefix_of` deliveredCMs s ++ arrived evs /\
  (forall s', loop c s evs = Running s' -> deliveredCMs s' = deliveredCMs s ++ arrived evs).
Proof.
  induction evs as [|ev evs IH]; intros s HI.
  - simpl. rewrite app_nil_r. split; [done|]. by intros s' [= <-].
  - pose proof (step_Inv c s ev HI) as HI1.
    pose proof (step_deliveredCMs c s ev HI) as Hd.
    rewrite (arrived_cons ev evs). cbn [loop].
    destruct (step c s ev) as [s1|s1 r|s1]; cbn [stateOf] in *.
    + destruct (IH s1 HI1) as [Hp He]. rewrite Hd, <- app_assoc in Hp, He. by split.
    + rewrite Hd, app_nil_r. split; [by apply prefix_app_r|]. intros s' [=].
    + done.
Qed.

Lemma delivered_Data s :
  Inv s ->
  Forall2 (fun m cm => exists p, m = Handle p /\ Data s p = Some (Value cm))
          (delivered s) (deliveredCMs s).
Proof.
  intros [_ H2 _ _]. unfold deliveredCMs, Data.
  induction H2 as [|m l (p & -> & Hp) _ IH]; simpl; [constructor|].
  destruct (lookup_lt_is_Some_2 (heap s) p Hp) as [cm Hcm]. rewrite Hcm.
  constructor; [|exact IH]. exists p. by rewrite Hcm.
Qed.

(** X4. Messages reach the caller in the order the broker supplied them:
    the broker messages behind the values sent on [messages] are a prefix of
    the schedule's deliveries, all of them while the loop is running; and
    [Data] of each delivered handle is the [Value] of its broker message. *)
Theorem delivered_in_arrival_order c h0 evs :
  deliveredCMs (stateOf (ConsumeMessages c h0 evs)) `prefix_of` arrived evs /\
  (forall s, ConsumeMessages c h0 evs = Running s -> deliveredCMs s = arrived evs) /\
  Forall2 (fun m cm => exists p, m = Handle p /\
                                 Data (stateOf (ConsumeMessages c h0 evs)) p = Some (Value cm))
          (delivered (stateOf (ConsumeMessages c h0 evs)))
          (deliveredCMs (stateOf (ConsumeMessages c h0 evs))).
Proof.
  split; [|split].
  - unfold ConsumeMessages, consumeFrom. destruct (NewConsumerErr c).
    + apply prefix_nil.
    + destruct (loop_deliveredCMs c evs (init h0) (Inv_init h0)) as [Hp _].
      by destruct (loop c (init h0) evs).
  - intros s E. destruct (ConsumeMessages_Running c h0 evs s E) as [_ Hl].
    by destruct (loop_deliveredCMs c evs (init h0) (Inv_init h0)) as [_ ->].
  - apply delivered_Data, ConsumeMessages_Inv_state.
Qed.

Lemma delivered_in_arrival_order_witness :
  ConsumeMessages quietBroker [] inOrder
    = Running (mkState [m1; m2; m3] [] [Handle 0; Handle 1; Handle 2]
                 [Handle 0; Handle 1; Handle 2] [Handle 0; Handle 1; Handle 2]
                 [m1; m2; m3] 0) /\
  deliveredCMs (mkState [m1; m2; m3] [] [Handle 0; Handle 1; Handle 2]
                  [Handle 0; Handle 1; Handle 2] [Handle 0; Handle 1; Handle 2]
                  [m1; m2; m3] 0) = [m1; m2; m3].
Proof.
  assert (E : ConsumeMessages quietBroker [] inOrder
    = Running (mkState [m1; m2; m3] [] [Handle 0; Handle 1; Handle 2]
                 [Handle 0; Handle 1; Handle 2] [Handle 0; Handle 1; Handle 2]
                 [m1; m2; m3] 0)) by reflexivity.
  split; [exact E|].
  exact (proj1 (proj2 (delivered_in_arrival_order quietBroker [] inOrder)) _ E).
Defined.

Lemma loop_closes c evs : forall s,
  closes s = 0 ->
  match loop c s evs with
  | Running s' | Panicked s' => closes s' = 0
  | Returned s' _ => closes s' <= 1
  end.
Proof.
  induction evs as [|ev evs IH]; intros s Hc; simpl; [done|].
  assert (Hs : match step c s ev with
               | Running s' | Panicked s' => closes s' = 0
               | Returned s' _ => closes s' <= 1
               end).
  { destruct ev as [msg [|]|ack|code|]; simpl; try lia.
    destruct (forAcking s) as [|head tl]; simpl; [lia|].
    destruct (decide (ack <> Handle head)); simpl; [lia|].
    destruct (heap s !! head); simpl; lia. }
  destruct (step c s ev) as [s1|s1 r|s1]; [by apply IH|done|done].
Qed.

(** X5. The broker's consumer is released on every exit path, and only
    there: a call that is still running has not closed it; a call that has
    returned after making it has closed it once or twice; a call that could
    not make it has nothing to close; and no call panics. *)
Theorem consumer_closed_on_every_exit c h0 evs :
  match ConsumeMessages c h0 evs with
  | Running s => closes s = 0
  | Returned s _ =>
      match NewConsumerErr c with
      | Some _ => closes s = 0
      | None => 1 <= closes s <= 2
      end
  | Panicked _ => False
  end.
Proof.
  pose proof (ConsumeMessages_Inv c h0 evs) as HI.
  unfold ConsumeMessages, consumeFrom in *. destruct (NewConsumerErr c); [done|].
  pose proof (loop_closes c evs (init h0) eq_refl) as Hc.
  destruct (loop c (init h0) evs) as [s|s r|s]; simpl in *; [done|lia|done].
Qed.

(** X15. The ledger is exactly what was delivered and not yet accepted, in
    delivery order: the values sent on [messages] are the accepted
    acknowledgments followed by the handles of the ledger; so the ledger is
    the deliveries less the first accepted ones, and it is empty exactly when
    everything delivered was acknowledged. *)
Theorem ledger_is_unacknowledged_deliveries c h0 evs :
  delivered (stateOf (ConsumeMessages c h0 evs))
    = accepted (stateOf (ConsumeMessages c h0 evs))
        ++ (Handle <$> forAcking (stateOf (ConsumeMessages c h0 evs))) /\
  Handle <$> forAcking (stateOf (ConsumeMessages c h0 evs))
    = drop (length (accepted (stateOf (ConsumeMessages c h0 evs))))
           (delivered (stateOf (ConsumeMessages c h0 evs))) /\
  length (accepted (stateOf (ConsumeMessages c h0 evs)))
    + length (forAcking (stateOf (ConsumeMessages c h0 evs)))
    = length (delivered (stateOf (ConsumeMessages c h0 evs))) /\
  (forAcking (stateOf (ConsumeMessages c h0 evs)) = [] <->
   accepted (stateOf (ConsumeMessages c h0 evs))
     = delivered (stateOf (ConsumeMessages c h0 evs))).
Proof.
  destruct (ConsumeMessages_Inv_state c h0 evs) as [H1 _ _ _].
  set (s := stateOf (ConsumeMessages c h0 evs)) in *.
  split; [exact H1|].
  rewrite H1. split; [by rewrite drop_app_length|]. split.
  - by rewrite length_app, length_fmap.
  - split.
    + intros ->. simpl. by rewrite app_nil_r.
    + intros E. apply (f_equal length) in E.
      rewrite length_app, length_fmap in E.
      destruct (forAcking s); [done|simpl in E; lia].
Qed.

End Consumer.

(** ** The source's configuration: [buildSaramaConsumerConfig] *)
Module Source.

(** [OffsetOldest] and [OffsetNewest], lines 17-21; [int64] values. *)
Definition OffsetOldest : Z := -2.
Definition OffsetNewest : Z := -1.

(** A [time.Duration] counts nanoseconds. *)
Definition Minute : Z := 60 * 1000000000.
Definition defaultMetadataRefreshFrequency : Z := 10 * Minute.

(** [sarama.KafkaVersion] *)
Definition KafkaVersion : Type := list nat.

(** [AsyncMessageSourceConfig], lines 146-154. [Version] is a pointer. *)
Record AsyncMessageSourceConfig := mkAsyncMessageSourceConfig {
  ConsumerGroup : string;
  Topic : string;
  Brokers : list string;
  Offset : Z;
  MetadataRefreshFrequency : Z;
  OffsetsRetention : Z;
  Version : option KafkaVersion
}.

(** The fields of [cluster.Config] the builder writes. *)
Record ClusterConfig := mkClusterConfig {
  Consumer_Return_Errors : bool;
  Consumer_Offsets_Initial : Z;
  Metadata_RefreshFrequency : Z;
  Consumer_Offsets_Retention : Z;
  Config_Version : KafkaVersion
}.

(** [buildSaramaConsumerConfig], lines 156-176; [dflt] is what
    [cluster.NewConfig()] returns. *)
Definition buildSaramaConsumerConfig (ams : AsyncMessageSourceConfig)
    (dflt : ClusterConfig) : ClusterConfig :=
  let offset := if decide (Offset ams <> 0%Z) then Offset ams else OffsetNewest in
  let mrf :=
    if decide (MetadataRefreshFrequency ams > 0)%Z
    then MetadataRefreshFrequency ams
    else defaultMetadataRefreshFrequency in
  mkClusterConfig true offset mrf (OffsetsRetention ams)
    (match Version ams with
     | Some v => v
     | None => Config_Version dflt
     end).

(** A configuration that leaves [Offset] unset, over some defaults. *)
Definition unsetOffset : AsyncMessageSourceConfig :=
  mkAsyncMessageSourceConfig "group" "topic" ["broker:9092"] 0 0 0 None.

Definition someDefaults : ClusterConfig := mkClusterConfig false 0 0 0 [0; 8; 2; 0].

(** C10. The initial offset handed to the consumer is [OffsetNewest] when the
    configured [Offset] is zero and the configured value itself otherwise
    ([OffsetOldest] included); so it is never zero, whatever is configured. *)
Theorem initial_offset_defaults_to_newest ams dflt :
  (Offset ams = 0%Z ->
   Consumer_Offsets_Initial (buildSaramaConsumerConfig ams dflt) = OffsetNewest) /\
  (Offset ams <> 0%Z ->
   Consumer_Offsets_Initial (buildSaramaConsumerConfig ams dflt) = Offset ams) /\
  (Offset ams = OffsetOldest ->
   Consumer_Offsets_Initial (buildSaramaConsumerConfig ams dflt) = (-2)%Z) /\
  Consumer_Offsets_Initial (buildSaramaConsumerConfig ams dflt) <> 0%Z.
Proof.
  unfold buildSaramaConsumerConfig, OffsetOldest, OffsetNewest. simpl.
  destruct (decide (Offset ams <> 0%Z)) as [Hne|Heq].
  - repeat split; done.
  - apply dec_stable in Heq. rewrite Heq. repeat split; done.
Qed.

Lemma initial_offset_defaults_to_newest_witness :
  Offset unsetOffset = 0%Z /\
  Consumer_Offsets_Initial (buildSaramaConsumerConfig unsetOffset someDefaults) = (-1)%Z.
Proof.
  split; [reflexivity|].
  exact (proj1 (initial_offset_defaults_to_newest unsetOffset someDefaults) eq_refl).
Defined.

(** A configuration with a refresh frequency of one minute. *)
Definition everyMinute : AsyncMessageSourceConfig :=
  mkAsyncMessageSourceConfig "group" "topic" ["broker:9092"] 0 Minute 0 None.

(** X11. The metadata refresh frequency handed to the consumer is always
    positive: the configured one when that is positive, and ten minutes when
    it is zero or negative. *)
Theorem metadata_refresh_frequency_positive ams dflt :
  (0 < Metadata_RefreshFrequency (buildSaramaConsumerConfig ams dflt))%Z /\
  ((0 < MetadataRefreshFrequency ams)%Z ->
   Metadata_RefreshFrequency (buildSaramaConsumerConfig ams dflt) = MetadataRefreshFrequency ams) /\
  ((MetadataRefreshFrequency ams <= 0)%Z ->
   Metadata_RefreshFrequency (buildSaramaConsumerConfig ams dflt) = 600000000000%Z).
Proof.
  unfold buildSaramaConsumerConfig, defaultMetadataRefreshFrequency, Minute. simpl.
  destruct (decide (MetadataRefreshFrequency ams > 0)%Z) as [Hpos|Hneg].
  - repeat split; lia.
  - repeat split; lia.
Qed.

Lemma metadata_refresh_frequency_positive_witness :
  (0 < MetadataRefreshFrequency everyMinute)%Z /\
  Metadata_RefreshFrequency (buildSaramaConsumerConfig everyMinute someDefaults) = 60000000000%Z.
Proof.
  assert (H : (0 < MetadataRefreshFrequency everyMinute)%Z) by reflexivity.
  split; [exact H|].
  exact (proj1 (proj2 (metadata_refresh_frequency_positive everyMinute someDefaults)) H).
Defined.

End Source.

(** ** The sink: configuration, [PublishMessages] and [doPublishMessages] *)
Module Publisher.

(** The two partitioner constructors of sarama the builder chooses between. *)
Inductive PartitionerConstructor :=
| NewHashPartitioner
| NewRoundRobinPartitioner.

(** The fields of [sarama.Config] the builder writes. *)
Record SaramaConfig := mkSaramaConfig {
  Producer_RequiredAcks : Z;
  Producer_Return_Successes : bool;
  Producer_Return_Errors : bool;
  Producer_Retry_Max : Z;
  Producer_Timeout : Z;
  Producer_MaxMessageBytes : Z;
  Producer_Partitioner : PartitionerConstructor;
  Config_Version : Source.KafkaVersion
}.

(** [sarama.WaitForAll], and a second as a [time.Duration]. *)
Definition WaitForAll : Z := -1.
Definition Second : Z := 1000000000.

(** The conversion [int32(x)] of an [int]: the low 32 bits, signed. *)
Definition int32 (x : Z) : Z := ((x + 2 ^ 31) mod 2 ^ 32 - 2 ^ 31)%Z.

Module Config.

(** [AsyncMessageSinkConfig], lines 26-32. [KeyFunc] and [Version] may be nil. *)
Record AsyncMessageSinkConfig := mkAsyncMessageSinkConfig {
  Brokers : list string;
  Topic : string;
  MaxMessageBytes : Z;
  KeyFunc : option (Message -> bytes);
  Version : option Source.KafkaVersion
}.

End Config.

(** [buildSaramaProducerConfig], lines 111-136. [dflt] is what
    [sarama.NewConfig()] returns and [MaxRequestSize] the value of the package
    variable [sarama.MaxRequestSize], whose new value is returned with the
    configuration. *)
Definition buildSaramaProducerConfig (ams : Config.AsyncMessageSinkConfig)
    (dflt : SaramaConfig) (MaxRequestSize : Z) : SaramaConfig * Z :=
  let MaxRequestSize' :=
    if decide (Config.MaxMessageBytes ams <> 0%Z) then
      if decide (Config.MaxMessageBytes ams > MaxRequestSize)%Z
      then int32 (Config.MaxMessageBytes ams)
      else MaxRequestSize
    else MaxRequestSize in
  let maxMessageBytes :=
    if decide (Config.MaxMessageBytes ams <> 0%Z)
    then Config.MaxMessageBytes ams
    else Producer_MaxMessageBytes dflt in
  let partitioner :=
    match Config.KeyFunc ams with
    | Some _ => NewHashPartitioner
    | None => NewRoundRobinPartitioner
    end in
  let version :=
    match Config.Version ams with
    | Some v => v
    | None => Config_Version dflt
    end in
  (mkSaramaConfig WaitForAll true true 3 (60 * Second) maxMessageBytes
     partitioner version,
   MaxRequestSize').

(** A [sarama.Client]: what the code needs of it is the configuration every
    producer made from it runs under. *)
Record Client := mkClient { conf : SaramaConfig }.

(** [AsyncMessageSink], lines 50-54. *)
Record AsyncMessageSink := mkAsyncMessageSink {
  client : Client;
  Topic : string;
  KeyFunc : option (Message -> bytes)
}.

(** [NewAsyncMessageSink], lines 34-48. [newClientErr] is the error of
    [sarama.NewClient], if any. *)
Definition NewAsyncMessageSink (newClientErr : option nat) (dflt : SaramaConfig)
    (MaxRequestSize : Z) (config : Config.AsyncMessageSinkConfig)
    : option AsyncMessageSink * option GoError :=
  let conf := (buildSaramaProducerConfig config dflt MaxRequestSize).1 in
  match newClientErr with
  | Some code => (None, Some (BrokerError code))
  | None =>
      (Some (mkAsyncMessageSink (mkClient conf) (Config.Topic config)
               (Config.KeyFunc config)),
       None)
  end.

Module Sarama.

(** [sarama.ProducerMessage], the fields the code writes. [Key] is nil unless
    the code sets it. *)
Record ProducerMessage := mkProducerMessage {
  Topic : string;
  Key : option bytes;
  Value : bytes;
  Metadata : Message
}.

End Sarama.

Import Sarama (ProducerMessage, mkProducerMessage, Key, Value, Metadata).

(** The [sarama.AsyncProducer] as the code sees it: whether
    [NewAsyncProducerFromClient] fails, and what [producer.Close()] returns. *)
Record Producer := mkProducer {
  NewProducerErr : option nat;
  CloseErr : option nat
}.

(** What the goroutine of lines 79-83 is doing: waiting in
    [range successes], holding a notification it is about to send on [acks],
    or done (the channel was closed and drained, or it was never started). *)
Inductive Forwarder :=
| Waiting
| Holding (suc : nat)
| Finished.

(** The moves of the system: the three cases of the select of lines 85-103,
    the broker putting a success notification for the [i]-th request on
    [successes], and the two halves of the goroutine's loop body. *)
Inductive Event :=
| RecvMessage (m : Message)
| CtxDone
| RecvError (code : nat)
| BrokerSuccess (i : nat)
| ForwarderRecv
| ForwarderSend.

(** The state of one [PublishMessages] call.  A request is a pointer to a
    [ProducerMessage]: the address of the [i]-th request sent on
    [producer.Input()] is [i], and [input] holds what it points to.
    [successes] is the content of the channel, [signalled] all that the broker
    ever put on it, [acks] the values sent on the caller's [acks].
    [returned] is the result of [PublishMessages] once it has returned;
    [closed] says that no producer is open (it was closed, or never made).
    [panicked] is set by a nil dereference, which ends the program. *)
Record State := mkState {
  input : list ProducerMessage;
  signalled : list nat;
  successes : list nat;
  forwarder : Forwarder;
  acks : list Message;
  returned : option (option GoError);
  closed : bool;
  panicked : bool
}.

Section Sink.

(** The method [Data] of the caller's messages, and the sink. *)
Variable Data : Message -> bytes.
Variable ams : AsyncMessageSink.
Variable producer : Producer.

(** Lines 87-97: the request built for the message [m]. *)
Definition buildMessage (m : Message) : ProducerMessage :=
  mkProducerMessage (Topic ams)
    (match KeyFunc ams with
     | Some f => Some (f m)
     | None => None
     end)
    (Data m) m.

(** [input <- message] *)
Definition sendInput (pm : ProducerMessage) (s : State) : State :=
  mkState (input s ++ [pm]) (signalled s) (successes s) (forwarder s) (acks s)
          (returned s) (closed s) (panicked s).

(** Lines 65-70: [doPublishMessages] has returned [rerr]; the producer is
    closed, and the call returns [rerr], or what the close returned when
    [rerr] is nil. *)
Definition finish (rerr : option GoError) (s : State) : State :=
  mkState (input s) (signalled s) (successes s) (forwarder s) (acks s)
          (Some (match rerr with
                 | Some err => Some err
                 | None => brokerErr (CloseErr producer)
                 end))
          true (panicked s).

(** The broker signals the success of the request at address [i]. *)
Definition signal (i : nat) (s : State) : State :=
  mkState (input s) (signalled s ++ [i]) (successes s ++ [i]) (forwarder s)
          (acks s) (returned s) (closed s) (panicked s).

Definition setForwarder (f : Forwarder) (q : list nat) (s : State) : State :=
  mkState (input s) (signalled s) q f (acks s) (returned s) (closed s)
          (panicked s).

(** [acks <- suc.Metadata.(substrate.Message)] *)
Definition emit (m : Message) (s : State) : State :=
  mkState (input s) (signalled s) (successes s) Waiting (acks s ++ [m])
          (returned s) (closed s) (panicked s).

Definition panic (s : State) : State :=
  mkState (input s) (signalled s) (successes s) (forwarder s) (acks s)
          (returned s) (closed s) true.

(** One move.  A move that cannot be made leaves the state as it is: the
    select is left once the call has returned; the broker signals only
    requests it was handed, each once, and none once the producer is closed;
    the goroutine receives only when it waits, and sends only what it holds. *)
Definition step (s : State) (ev : Event) : State :=
  if panicked s then s else
  match ev with
  | RecvMessage m =>
      match returned s with
      | Some _ => s
      | None =>
          if decide (m = NilMessage) then panic s
          else sendInput (buildMessage m) s
      end
  | CtxDone =>
      match returned s with
      | Some _ => s
      | None => finish None s
      end
  | RecvError code =>
      match returned s with
      | Some _ => s
      | None => finish (Some (BrokerError code)) s
      end
  | BrokerSuccess i =>
      if closed s then s
      else if decide (i < length (input s) /\ i ∉ signalled s) then signal i s
      else s
  | ForwarderRecv =>
      match forwarder s with
      | Waiting =>
          match successes s with
          | suc :: q => setForwarder (Holding suc) q s
          | [] => if closed s then setForwarder Finished [] s else s
          end
      | _ => s
      end
  | ForwarderSend =>
      match forwarder s with
      | Holding suc =>
          match input s !! suc with
          | Some pm => emit (Metadata pm) s
          | None => panic s
          end
      | _ => s
      end
  end.

Definition run (s : State) (evs : list Event) : State := foldl step s evs.

(** Lines 60-63 and 75-83: the state in which the loop is entered, or the
    state of a call that could not make its producer. *)
Definition enter : State :=
  match NewProducerErr producer with
  | Some code => mkState [] [] [] Finished [] (Some (Some (BrokerError code))) true false
  | None => mkState [] [] [] Waiting [] None false false
  end.

(** [PublishMessages], lines 58-71, under a schedule. *)
Definition PublishMessages (evs : list Event) : State := run enter evs.

(** [suc.Metadata] for the request at address [i]. *)
Definition token (s : State) (i : nat) : Message :=
  match input s !! i with
  | Some pm => Metadata pm
  | None => NilMessage
  end.

(** The notifications signalled and not yet forwarded: the one the goroutine
    holds, then the content of the channel. *)
Definition pending (s : State) : list nat :=
  match forwarder s with
  | Holding suc => suc :: successes s
  | _ => successes s
  end.

(** How often the message [M] occurs in a stream. *)
Definition occurrences (M : Message) (l : list Message) : nat :=
  count_occ Message_eq_dec l M.

(** *** The invariant of the system *)

(** What holds of every state a call reaches: the broker signalled only
    requests it was handed, each once; what was signalled is what the
    goroutine forwarded, in order, followed by what is pending; every request
    is the one built for the message it carries as its token; a call that has
    returned has closed its producer; and the goroutine is done only when the
    channel is closed and empty. *)
Record Inv (s : State) : Prop := mkInv {
  inv_valid : Forall (fun i => i < length (input s)) (signalled s);
  inv_nodup : NoDup (signalled s);
  inv_queue : exists fw, signalled s = fw ++ pending s /\ acks s = token s <$> fw;
  inv_built : Forall (fun pm => pm = buildMessage (Metadata pm)) (input s);
  inv_closed : returned s <> None -> closed s = true;
  inv_finished : forwarder s = Finished -> successes s = [] /\ closed s = true
}.

Lemma token_sendInput pm s i :
  i < length (input s) -> token (sendInput pm s) i = token s i.
Proof.
  intros Hi. unfold token. simpl. by rewrite lookup_app_l.
Qed.

Lemma tokens_sendInput pm s l :
  Forall (fun i => i < length (input s)) l ->
  token (sendInput pm s) <$> l = token s <$> l.
Proof.
  induction 1 as [|i l Hi _ IH]; simpl; [done|].
  rewrite token_sendInput by done. f_equal. exact IH.
Qed.

Lemma token_ext s s' : input s' = input s -> token s' = token s.
Proof. intros E. unfold token. by rewrite E. Qed.

Lemma Inv_enter : Inv enter.
Proof.
  unfold enter. destruct (NewProducerErr producer); split; simpl;
    try constructor; try done; by exists [].
Qed.

Lemma Inv_sendInput m s : Inv s -> Inv (sendInput (buildMessage m) s).
Proof.
  intros [H1 H2 (fw & H3 & H3') H4 H5 H6]. split; simpl; try done.
  - eapply Forall_impl; [exact H1|]. intros i Hi. simpl in Hi.
    rewrite length_app. simpl. lia.
  - exists fw. split; [done|]. rewrite tokens_sendInput; [done|].
    rewrite H3 in H1. by apply Forall_app in H1 as [H1 _].
  - apply Forall_app. split; [done|]. by apply Forall_singleton.
Qed.

Lemma Inv_finish rerr s : Inv s -> Inv (finish rerr s).
Proof.
  intros [H1 H2 H3 H4 H5 H6]. split; simpl; try done.
  intros Hf. by destruct (H6 Hf).
Qed.

Lemma Inv_panic s : Inv s -> Inv (panic s).
Proof. intros [H1 H2 H3 H4 H5 H6]. by split. Qed.

Lemma Inv_signal i s :
  closed s = false -> i < length (input s) -> i ∉ signalled s ->
  Inv s -> Inv (signal i s).
Proof.
  intros Hc Hi Hn [H1 H2 (fw & H3 & H3') H4 H5 H6]. split; simpl; try done.
  - apply Forall_app. split; [done|]. by apply Forall_singleton.
  - apply NoDup_app. split; [done|]. split; [|apply NoDup_singleton].
    intros j Hj Hin. apply list_elem_of_singleton in Hin. by subst j.
  - exists fw. split; [|done]. rewrite H3.
    unfold pending. simpl. destruct (forwarder s); by rewrite <- ?app_assoc.
  - intros Hf. destruct (H6 Hf) as [_ Hc']. congruence.
Qed.

Lemma Inv_recv suc q s :
  forwarder s = Waiting -> successes s = suc :: q ->
  Inv s -> Inv (setForwarder (Holding suc) q s).
Proof.
  intros Hw Hq [H1 H2 (fw & H3 & H3') H4 H5 H6]. split; simpl; try done.
  exists fw. split; [|done]. rewrite H3. unfold pending. simpl. by rewrite Hw, Hq.
Qed.

Lemma Inv_finished s :
  forwarder s = Waiting -> successes s = [] -> closed s = true ->
  Inv s -> Inv (setForwarder Finished [] s).
Proof.
  intros Hw Hq Hc [H1 H2 (fw & H3 & H3') H4 H5 H6]. split; simpl; try done.
  exists fw. split; [|done]. rewrite H3. unfold pending. simpl. by rewrite Hw, Hq.
Qed.

Lemma Inv_emit suc pm s :
  forwarder s = Holding suc -> input s !! suc = Some pm ->
  Inv s -> Inv (emit (Metadata pm) s).
Proof.
  intros Hh Hpm [H1 H2 (fw & H3 & H3') H4 H5 H6]. split; simpl; try done.
  exists (fw ++ [suc]). unfold pending in *. rewrite Hh in H3. simpl. split.
  - by rewrite <- app_assoc.
  - rewrite fmap_app, H3'. simpl. f_equal. unfold token. simpl. by rewrite Hpm.
Qed.

(** Every move keeps the invariant. *)
Lemma move_Inv s ev : Inv s -> Inv (step s ev).
Proof.
  intros HI. unfold step. destruct (panicked s); [done|].
  destruct ev as [m| |code|i| |].
  - destruct (returned s); [done|]. destruct (decide (m = NilMessage)).
    + by apply Inv_panic.
    + by apply Inv_sendInput.
  - destruct (returned s); [done|]. by apply Inv_finish.
  - destruct (returned s); [done|]. by apply Inv_finish.
  - destruct (closed s) eqn:Hc; [done|].
    destruct (decide (i < length (input s) /\ i ∉ signalled s)) as [[Hi Hn]|]; [|done].
    by apply Inv_signal.
  - destruct (forwarder s) eqn:Hf; try done.
    destruct (successes s) as [|suc q] eqn:Hq.
    + destruct (closed s) eqn:Hc; [|done]. by apply Inv_finished.
    + by apply Inv_recv.
  - destruct (forwarder s) as [|suc|] eqn:Hf; try done.
    destruct (input s !! suc) as [pm|] eqn:Hpm.
    + by apply (Inv_emit suc).
    + by apply Inv_panic.
Qed.

Lemma run_Inv evs : forall s, Inv s -> Inv (run s evs).
Proof.
  induction evs as [|ev evs IH]; intros s HI; simpl; [done|].
  apply IH. by apply move_Inv.
Qed.

Lemma PublishMessages_Inv evs : Inv (PublishMessages evs).
Proof. apply run_Inv, Inv_enter. Qed.

Lemma run_app s evs evs' : run s (evs ++ evs') = run (run s evs) evs'.
Proof. unfold run. apply foldl_app. Qed.

(** What was signalled is what was acknowledged followed by what is pending. *)
Lemma Inv_tokens s :
  Inv s -> acks s ++ (token s <$> pending s) = token s <$> signalled s.
Proof.
  intros [_ _ (fw & H3 & H3') _ _ _]. by rewrite H3, H3', fmap_app.
Qed.

(** The goroutine never dereferences a nil request. *)
Lemma Inv_pending_live s suc :
  Inv s -> suc ∈ pending s -> is_Some (input s !! suc).
Proof.
  intros [H1 _ (fw & H3 & _) _ _ _] Hin. apply lookup_lt_is_Some.
  rewrite Forall_forall in H1. apply H1. rewrite H3. apply elem_of_app. by right.
Qed.

(** *** The goroutine left to itself *)

(** The moves of the goroutine. *)
Definition forwarderMove (ev : Event) : Prop := ev = ForwarderRecv \/ ev = ForwarderSend.

Lemma step_ForwarderRecv s suc q :
  panicked s = false -> forwarder s = Waiting -> successes s = suc :: q ->
  step s ForwarderRecv = setForwarder (Holding suc) q s.
Proof. intros Hp Hw Hq. unfold step. by rewrite Hp, Hw, Hq. Qed.

Lemma step_ForwarderSend s suc :
  Inv s -> panicked s = false -> forwarder s = Holding suc ->
  step s ForwarderSend = emit (token s suc) s.
Proof.
  intros HI Hp Hh. unfold step, token. rewrite Hp, Hh.
  destruct (Inv_pending_live s suc HI) as [pm Hpm].
  - unfold pending. rewrite Hh. left.
  - by rewrite Hpm.
Qed.

(** Waiting on a channel that holds [q], the goroutine forwards all of [q]. *)
Lemma drain_waiting q : forall s,
  Inv s -> panicked s = false -> forwarder s = Waiting -> successes s = q ->
  exists evs,
    Forall forwarderMove evs /\
    pending (run s evs) = [] /\
    acks (run s evs) = acks s ++ (token s <$> q).
Proof.
  induction q as [|suc q IH]; intros s HI Hp Hw Hq.
  - exists []. simpl. split; [constructor|]. split.
    + unfold pending. by rewrite Hw.
    + by rewrite app_nil_r.
  - pose proof (step_ForwarderRecv s suc q Hp Hw Hq) as E1.
    pose proof (move_Inv s ForwarderRecv HI) as HI1. rewrite E1 in HI1.
    pose proof (step_ForwarderSend (setForwarder (Holding suc) q s) suc HI1 Hp eq_refl) as E2.
    pose proof (move_Inv _ ForwarderSend HI1) as HI2. rewrite E2 in HI2.
    destruct (IH _ HI2 Hp eq_refl eq_refl) as (evs & Hm & Hpend & Hacks).
    exists (ForwarderRecv :: ForwarderSend :: evs). split; [|split].
    + constructor; [by left|]. constructor; [by right|done].
    + simpl. by rewrite E1, E2.
    + simpl. rewrite E1, E2, Hacks. simpl. by rewrite <- app_assoc.
Qed.

(** By its own moves the goroutine forwards everything that is pending. *)
Lemma forwarder_drains s :
  Inv s -> panicked s = false ->
  exists evs,
    Forall forwarderMove evs /\
    pending (run s evs) = [] /\
    acks (run s evs) = acks s ++ (token s <$> pending s).
Proof.
  intros HI Hp. destruct (forwarder s) as [|suc|] eqn:Hf.
  - destruct (drain_waiting (successes s) s HI Hp Hf eq_refl) as (evs & H1 & H2 & H3).
    exists evs. unfold pending at 2. by rewrite Hf.
  - pose proof (step_ForwarderSend s suc HI Hp Hf) as E.
    pose proof (move_Inv s ForwarderSend HI) as HI1. rewrite E in HI1.
    destruct (drain_waiting (successes s) _ HI1 Hp eq_refl eq_refl) as (evs & H1 & H2 & H3).
    exists (ForwarderSend :: evs). split; [|split].
    + constructor; [by right|done].
    + simpl. by rewrite E.
    + simpl. rewrite E, H3. unfold pending at 1. rewrite Hf. simpl.
      by rewrite <- app_assoc.
  - destruct (inv_finished s HI Hf) as [Hq _].
    exists []. simpl. unfold pending. rewrite Hf, Hq. simpl.
    split; [constructor|]. split; [done|]. by rewrite app_nil_r.
Qed.

(** *** Once the call has returned *)

(** The part of a state that no move of a returned call changes. *)
Definition frozen (s s' : State) : Prop :=
  returned s' = returned s /\ input s' = input s /\
  signalled s' = signalled s /\ closed s' = closed s.

Lemma step_frozen s ev :
  returned s <> None -> closed s = true -> frozen s (step s ev).
Proof.
  intros Hr Hc. unfold step, frozen. destruct (panicked s); [done|].
  destruct ev as [m| |code|i| |].
  - destruct (returned s) eqn:E; [done|congruence].
  - destruct (returned s) eqn:E; [done|congruence].
  - destruct (returned s) eqn:E; [done|congruence].
  - rewrite Hc. simpl. by rewrite Hc.
  - destruct (forwarder s); try done. destruct (successes s); [|done].
    rewrite Hc. simpl. by rewrite Hc.
  - destruct (forwarder s) as [|suc|]; try done. by destruct (input s !! suc).
Qed.

Lemma run_frozen evs : forall s,
  returned s <> None -> closed s = true -> frozen s (run s evs).
Proof.
  induction evs as [|ev evs IH]; intros s Hr Hc; simpl; [done|].
  destruct (step_frozen s ev Hr Hc) as (E1 & E2 & E3 & E4).
  destruct (IH (step s ev)) as (F1 & F2 & F3 & F4).
  - by rewrite E1.
  - by rewrite E4.
  - unfold frozen. by rewrite F1, F2, F3, F4.
Qed.

(** The select leaves the loop: what the call is from then on. *)
Lemma leave_loop s rerr evs' :
  Inv s ->
  frozen (finish rerr s) (run (finish rerr s) evs') /\
  acks (run (finish rerr s) evs') ++ (token s <$> pending (run (finish rerr s) evs'))
    = acks s ++ (token s <$> pending s).
Proof.
  intros HI. set (s1 := finish rerr s).
  assert (HI1 : Inv s1) by by apply Inv_finish.
  assert (Hfr : frozen s1 (run s1 evs')) by by apply run_frozen.
  split; [done|]. destruct Hfr as (_ & Ein & Esig & _).
  pose proof (Inv_tokens _ (run_Inv evs' s1 HI1)) as T2.
  pose proof (Inv_tokens _ HI) as T.
  rewrite (token_ext s1 (run s1 evs') Ein), Esig in T2.
  change (token s1) with (token s) in T2. change (signalled s1) with (signalled s) in T2.
  by rewrite T2, T.
Qed.

(** *** Counting tokens *)

Lemma occurrences_submseteq M l k :
  l ⊆+ k -> occurrences M l <= occurrences M k.
Proof.
  unfold occurrences.
  induction 1 as [|x l k _ IH|x y l|x l k _ IH|l k k' _ IH1 _ IH2]; simpl.
  - lia.
  - destruct (Message_eq_dec x M); lia.
  - destruct (Message_eq_dec x M), (Message_eq_dec y M); lia.
  - destruct (Message_eq_dec x M); lia.
  - lia.
Qed.

Lemma tokens_of_input s :
  token s <$> seq 0 (length (input s)) = Metadata <$> input s.
Proof.
  apply list_eq. intros i. rewrite !list_lookup_fmap.
  destruct (decide (i < length (input s))) as [Hi|Hi].
  - rewrite lookup_seq_lt by done. simpl. unfold token.
    destruct (lookup_lt_is_Some_2 (input s) i Hi) as [pm Hpm]. by rewrite Hpm.
  - rewrite lookup_seq_ge by lia. by rewrite lookup_ge_None_2 by lia.
Qed.

(** No message has more successes signalled than requests carrying it. *)
Lemma signalled_le_handed s M :
  Inv s ->
  occurrences M (token s <$> signalled s) <= occurrences M (Metadata <$> input s).
Proof.
  intros [H1 H2 _ _ _ _]. rewrite <- tokens_of_input.
  apply occurrences_submseteq, fmap_submseteq.
  apply NoDup_submseteq; [done|]. intros i Hi.
  rewrite Forall_forall in H1. apply elem_of_seq. specialize (H1 i Hi). lia.
Qed.

(** *** What the select takes from [messages] *)

(** The messages a schedule has the select take from [messages]. *)
Definition offered (evs : list Event) : list Message :=
  omap (fun ev => match ev with
                  | RecvMessage m => Some m
                  | _ => None
                  end) evs.

#[local] Instance Event_eq_dec : EqDecision Event.
Proof. solve_decision. Defined.

Lemma offered_cons ev evs : offered (ev :: evs) = offered [ev] ++ offered evs.
Proof. unfold offered. simpl. by destruct ev. Qed.

Lemma run_panicked evs : forall s, panicked s = true -> run s evs = s.
Proof.
  induction evs as [|ev evs IH]; intros s Hp; simpl; [done|].
  assert (E : step s ev = s) by (unfold step; by rewrite Hp).
  rewrite E. by apply IH.
Qed.

(** A call that has returned or crashed hands nothing more to the broker. *)
Lemma run_stuck s evs :
  Inv s -> returned s <> None \/ panicked s = true ->
  input (run s evs) = input s /\
  (returned (run s evs) <> None \/ panicked (run s evs) = true).
Proof.
  intros HI Hst. destruct (panicked s) eqn:Hp.
  - rewrite (run_panicked evs s Hp). split; [done|]. by right.
  - destruct Hst as [Hr|]; [|done].
    destruct (run_frozen evs s Hr (inv_closed s HI Hr)) as (E1 & E2 & _).
    split; [done|]. left. by rewrite E1.
Qed.

Lemma step_input_other s ev :
  (forall m, ev <> RecvMessage m) -> input (step s ev) = input s.
Proof.
  intros Hne. unfold step. destruct (panicked s); [done|].
  destruct ev as [m| |code|i| |].
  - by destruct (Hne m).
  - by destruct (returned s).
  - by destruct (returned s).
  - destruct (closed s); [done|]. by destruct (decide _).
  - destruct (forwarder s); try done. destruct (successes s); [|done].
    by destruct (closed s).
  - destruct (forwarder s) as [|suc|]; try done. by destruct (input s !! suc).
Qed.

Lemma run_input evs : forall s,
  Inv s ->
  input (run s evs) `prefix_of` input s ++ (buildMessage <$> offered evs) /\
  (returned (run s evs) = None -> panicked (run s evs) = false ->
   input (run s evs) = input s ++ (buildMessage <$> offered evs)).
Proof.
  induction evs as [|ev evs IH]; intros s HI.
  - simpl. rewrite app_nil_r. by split.
  - assert (Hstuck : returned s <> None \/ panicked s = true ->
      input (run s (ev :: evs)) `prefix_of` input s ++ (buildMessage <$> offered (ev :: evs)) /\
      (returned (run s (ev :: evs)) = None -> panicked (run s (ev :: evs)) = false ->
       input (run s (ev :: evs)) = input s ++ (buildMessage <$> offered (ev :: evs)))).
    { intros Hst. destruct (run_stuck s (ev :: evs) HI Hst) as [E Hst'].
      rewrite E. split; [by apply prefix_app_r|].
      intros Hr Hp. destruct Hst' as [Hr'|Hp']; congruence. }
    destruct (returned s) as [r|] eqn:Hr; [apply Hstuck; by left|].
    destruct (panicked s) eqn:Hp; [apply Hstuck; by right|]. clear Hstuck.
    pose proof (move_Inv s ev HI) as HI1.
    rewrite (offered_cons ev evs), fmap_app, app_assoc.
    change (run s (ev :: evs)) with (run (step s ev) evs).
    destruct (decide (ev = RecvMessage NilMessage)) as [->|Hnil].
    + assert (E : step s (RecvMessage NilMessage) = panic s).
      { unfold step. by rewrite Hp, Hr. }
      rewrite E, (run_panicked evs (panic s) eq_refl). simpl.
      split; [rewrite <- app_assoc; by apply prefix_app_r|]. discriminate.
    + assert (E : input (step s ev) = input s ++ (buildMessage <$> offered [ev])).
      { destruct ev as [m| |code|i| |];
          try (rewrite step_input_other by done; simpl; by rewrite app_nil_r).
        unfold step. rewrite Hp, Hr. rewrite decide_False by congruence. done. }
      rewrite <- E. apply (IH (step s ev) HI1).
Qed.

Lemma Metadata_buildMessage (l : list Message) :
  Metadata <$> (buildMessage <$> l) = l.
Proof. induction l as [|m l IH]; simpl; [done|]. f_equal. exact IH. Qed.

(** The request at address [i] is the one built for the [i]-th message the
    select took from [messages]. *)
Lemma input_from_offered evs i pm :
  input (PublishMessages evs) !! i = Some pm ->
  exists m, offered evs !! i = Some m /\ pm = buildMessage m.
Proof.
  intros Hpm. destruct (run_input evs enter Inv_enter) as [[k Hk] _].
  assert (E : input enter = []) by (unfold enter; by destruct (NewProducerErr producer)).
  rewrite E in Hk. simpl in Hk. fold (PublishMessages evs) in Hk.
  assert (Hl : (buildMessage <$> offered evs) !! i = Some pm).
  { rewrite Hk. by apply lookup_app_l_Some. }
  rewrite list_lookup_fmap in Hl.
  destruct (offered evs !! i) as [m|]; [|discriminate].
  exists m. split; [done|]. simpl in Hl. by injection Hl as <-.
Qed.

(** No message is handed to the broker more often than it was taken. *)
Lemma handed_le_offered evs M :
  occurrences M (Metadata <$> input (PublishMessages evs)) <= occurrences M (offered evs).
Proof.
  destruct (run_input evs enter Inv_enter) as [[k Hk] _].
  assert (E : input enter = []) by (unfold enter; by destruct (NewProducerErr producer)).
  rewrite E in Hk. simpl in Hk.
  apply (f_equal (fmap Metadata)) in Hk.
  rewrite Metadata_buildMessage, fmap_app in Hk.
  unfold occurrences, PublishMessages. rewrite Hk, count_occ_app. lia.
Qed.

(** *** The claims *)

(** C6, amended. In every state a call reaches: every success the broker
    signalled is for a request built for a message the select took from
    [messages], and its token is that very message; the acknowledgment
    stream consists of those messages, one for each success the goroutine
    has sent on, in the order the broker signalled them, and the successes
    not yet sent on are pending; no message is acknowledged more often than
    it was taken; the goroutine, by its own moves, sends on all that is
    pending; and a message taken once whose success was signalled and is no
    longer pending occurs exactly once on the acknowledgment stream. *)
Theorem success_acknowledged_once evs :
  (exists fw,
     signalled (PublishMessages evs) = fw ++ pending (PublishMessages evs) /\
     NoDup (fw ++ pending (PublishMessages evs)) /\
     acks (PublishMessages evs) = token (PublishMessages evs) <$> fw /\
     Forall2 (fun i a => offered evs !! i = Some a) fw (acks (PublishMessages evs))) /\
  (forall i, i ∈ signalled (PublishMessages evs) ->
     exists m,
       offered evs !! i = Some m /\
       input (PublishMessages evs) !! i = Some (buildMessage m) /\
       Metadata (buildMessage m) = m /\
       token (PublishMessages evs) i = m) /\
  (forall M, occurrences M (acks (PublishMessages evs)) <= occurrences M (offered evs)) /\
  (panicked (PublishMessages evs) = false ->
   exists evs',
     Forall forwarderMove evs' /\
     pending (PublishMessages (evs ++ evs')) = [] /\
     acks (PublishMessages (evs ++ evs')) =
       token (PublishMessages evs) <$> signalled (PublishMessages evs)) /\
  (forall M i,
     occurrences M (offered evs) = 1 ->
     offered evs !! i = Some M ->
     i ∈ signalled (PublishMessages evs) ->
     i ∉ pending (PublishMessages evs) ->
     occurrences M (acks (PublishMessages evs)) = 1).
Proof.
  pose proof (PublishMessages_Inv evs) as HI.
  assert (Happ : forall evs', PublishMessages (evs ++ evs') = run (PublishMessages evs) evs')
    by (intros evs'; apply run_app).
  assert (Htok : forall i, i ∈ signalled (PublishMessages evs) ->
     exists m, offered evs !! i = Some m /\
               input (PublishMessages evs) !! i = Some (buildMessage m) /\
               Metadata (buildMessage m) = m /\
               token (PublishMessages evs) i = m).
  { intros i Hi.
    pose proof (inv_valid _ HI) as Hv. rewrite Forall_forall in Hv.
    destruct (lookup_lt_is_Some_2 _ i (Hv i Hi)) as [pm Hpm].
    destruct (input_from_offered evs i pm Hpm) as (m & Hm & ->).
    exists m. split; [done|]. split; [done|]. split; [done|].
    unfold token. by rewrite Hpm. }
  assert (Hle : forall M,
     occurrences M (acks (PublishMessages evs)) <= occurrences M (offered evs)).
  { intros M. pose proof (signalled_le_handed _ M HI) as Hle.
    rewrite <- (Inv_tokens _ HI) in Hle. pose proof (handed_le_offered evs M) as Hle'.
    unfold occurrences in *. rewrite count_occ_app in Hle. lia. }
  destruct (inv_queue _ HI) as (fw & Hq & Ha).
  set (s := PublishMessages evs) in *.
  split; [|split; [|split; [|split]]].
  - exists fw. split; [done|]. split; [rewrite <- Hq; apply (inv_nodup s HI)|].
    split; [done|]. rewrite Ha. apply Forall2_fmap_r, Forall_Forall2_diag.
    apply Forall_forall. intros i Hi.
    destruct (Htok i) as (m & Hm & _ & _ & Ht).
    { rewrite Hq. apply elem_of_app. by left. }
    simpl. by rewrite Ht.
  - exact Htok.
  - exact Hle.
  - intros Hp. destruct (forwarder_drains s HI Hp) as (evs' & Hm & Hpend & Hacks).
    exists evs'. rewrite Happ. split; [done|]. split; [done|].
    by rewrite Hacks, (Inv_tokens s HI).
  - intros M i Hone HM Hsig Hpend.
    assert (Hfw : i ∈ fw).
    { rewrite Hq in Hsig. apply elem_of_app in Hsig as [Hsig|Hsig]; [done|].
      by destruct Hpend. }
    destruct (Htok i Hsig) as (m & Hm & _ & _ & Ht).
    assert (m = M) as -> by congruence.
    assert (Hin : In M (acks s)).
    { apply list_elem_of_In. rewrite Ha, <- Ht. by apply list_elem_of_fmap_2. }
    apply (count_occ_In Message_eq_dec) in Hin.
    specialize (Hle M). unfold occurrences in *. lia.
Qed.

(** C7, amended. When the select takes a broker error, the call closes the
    producer and returns that very error, whatever is scheduled next; from
    then on nothing more is handed to the broker and the broker signals
    nothing more, but the goroutine is not stopped: the acknowledgments that
    follow the return are tokens of successes signalled before it, taken from
    those pending at the return. *)
Theorem broker_error_returns_it evs code evs' :
  returned (PublishMessages evs) = None ->
  panicked (PublishMessages evs) = false ->
  returned (PublishMessages (evs ++ RecvError code :: evs')) = Some (Some (BrokerError code)) /\
  acks (PublishMessages (evs ++ [RecvError code])) = acks (PublishMessages evs) /\
  frozen (PublishMessages (evs ++ [RecvError code]))
         (PublishMessages (evs ++ RecvError code :: evs')) /\
  acks (PublishMessages (evs ++ RecvError code :: evs')) ++
    (token (PublishMessages evs) <$> pending (PublishMessages (evs ++ RecvError code :: evs')))
  = acks (PublishMessages evs) ++ (token (PublishMessages evs) <$> pending (PublishMessages evs)).
Proof.
  intros Hr Hp.
  pose proof (PublishMessages_Inv evs) as HI.
  unfold PublishMessages in *. rewrite !run_app. simpl.
  set (s := run enter evs) in *.
  assert (Hs1 : step s (RecvError code) = finish (Some (BrokerError code)) s).
  { unfold step. by rewrite Hp, Hr. }
  rewrite Hs1.
  destruct (leave_loop s (Some (BrokerError code)) evs' HI) as [Hfr Hacks].
  split; [by destruct Hfr as (-> & _)|].
  split; [reflexivity|]. split; [exact Hfr|exact Hacks].
Qed.

(** C8, amended. When the select takes the cancellation, [doPublishMessages]
    returns nil and the call returns what closing the producer returns,
    whatever is scheduled next: no error exactly when the close reports
    none. *)
Theorem cancellation_returns_producer_close_result evs evs' :
  returned (PublishMessages evs) = None ->
  panicked (PublishMessages evs) = false ->
  PublishMessages (evs ++ [CtxDone]) = finish None (PublishMessages evs) /\
  returned (PublishMessages (evs ++ CtxDone :: evs')) = Some (brokerErr (CloseErr producer)) /\
  (returned (PublishMessages (evs ++ CtxDone :: evs')) = Some None <-> CloseErr producer = None).
Proof.
  intros Hr Hp.
  pose proof (PublishMessages_Inv evs) as HI.
  unfold PublishMessages in *. rewrite !run_app. simpl.
  set (s := run enter evs) in *.
  assert (Hs1 : step s CtxDone = finish None s).
  { unfold step. by rewrite Hp, Hr. }
  rewrite Hs1.
  destruct (leave_loop s None evs' HI) as [(Hret & _) _].
  rewrite Hret. simpl. repeat split; try done.
  - intros E. injection E as E. unfold brokerErr in E. by destruct (CloseErr producer).
  - by intros ->.
Qed.

(** *** Further properties of the call *)

(** X6. Requests are handed to the broker in the order the messages were
    taken from [messages], each built from its message: the requests are a
    prefix of those built for the messages of the schedule, and all of them
    while the call has neither returned nor crashed. *)
Theorem requests_in_order_of_receipt evs :
  input (PublishMessages evs) `prefix_of` buildMessage <$> offered evs /\
  (returned (PublishMessages evs) = None ->
   panicked (PublishMessages evs) = false ->
   input (PublishMessages evs) = buildMessage <$> offered evs /\
   Metadata <$> input (PublishMessages evs) = offered evs).
Proof.
  destruct (run_input evs enter Inv_enter) as [Hp He].
  assert (E : input enter = []) by (unfold enter; by destruct (NewProducerErr producer)).
  rewrite E in Hp, He. simpl in Hp, He. split; [exact Hp|].
  intros Hr Hpn. unfold PublishMessages. rewrite (He Hr Hpn).
  split; [done|]. apply Metadata_buildMessage.
Qed.

(** X7. No message is acknowledged more often than it was handed to the
    broker, nor more often than the schedule offered it: nothing appears on
    the acknowledgment stream that the caller did not publish. *)
Theorem acknowledged_only_if_published evs M :
  occurrences M (acks (PublishMessages evs))
    <= occurrences M (Metadata <$> input (PublishMessages evs)) /\
  occurrences M (Metadata <$> input (PublishMessages evs)) <= occurrences M (offered evs).
Proof.
  pose proof (PublishMessages_Inv evs) as HI. split.
  - pose proof (signalled_le_handed _ M HI) as Hle.
    rewrite <- (Inv_tokens _ HI) in Hle.
    unfold occurrences in *. rewrite count_occ_app in Hle. lia.
  - apply handed_le_offered.
Qed.

Lemma step_no_panic s ev :
  Inv s -> panicked s = false -> ev <> RecvMessage NilMessage ->
  panicked (step s ev) = false.
Proof.
  intros HI Hp Hne. unfold step. rewrite Hp.
  destruct ev as [m| |code|i| |].
  - destruct (returned s); [done|]. by rewrite decide_False by congruence.
  - by destruct (returned s).
  - by destruct (returned s).
  - destruct (closed s); [done|]. by destruct (decide _).
  - destruct (forwarder s); try done. destruct (successes s); [|done].
    by destruct (closed s).
  - destruct (forwarder s) as [|suc|] eqn:Hf; try done.
    destruct (Inv_pending_live s suc HI) as [pm Hpm].
    + unfold pending. rewrite Hf. left.
    + by rewrite Hpm.
Qed.

Lemma run_no_panic evs : forall s,
  Inv s -> panicked s = false -> RecvMessage NilMessage ∉ evs ->
  panicked (run s evs) = false.
Proof.
  induction evs as [|ev evs IH]; intros s HI Hp Hn; simpl; [done|].
  apply not_elem_of_cons in Hn as [Hne Hn].
  apply IH; [by apply move_Inv| |done].
  apply step_no_panic; try done; congruence.
Qed.

(** X8. The call crashes only on a nil message: under a schedule in which
    the select never takes a nil message, nothing is dereferenced that is
    nil; in particular the goroutine always finds the request whose success
    it was handed. *)
Theorem crashes_only_on_nil_message evs :
  RecvMessage NilMessage ∉ evs -> panicked (PublishMessages evs) = false.
Proof.
  intros Hn. apply run_no_panic; [apply Inv_enter| |done].
  unfold enter. by destruct (NewProducerErr producer).
Qed.

(** X9. When the producer cannot be made, the call returns that error and
    does nothing else, whatever the schedule: no request is handed to the
    broker, no acknowledgment is emitted, and the goroutine is never
    started. *)
Theorem producer_creation_failure code evs :
  NewProducerErr producer = Some code ->
  PublishMessages evs =
    mkState [] [] [] Finished [] (Some (Some (BrokerError code))) true false.
Proof.
  intros Hn. unfold PublishMessages, enter. rewrite Hn.
  induction evs as [|ev evs IH]; simpl; [done|].
  assert (E : step (mkState [] [] [] Finished [] (Some (Some (BrokerError code))) true false) ev
              = mkState [] [] [] Finished [] (Some (Some (BrokerError code))) true false).
  { by destruct ev. }
  rewrite E. exact IH.
Qed.

End Sink.

(** *** The sinks and schedules used as examples *)

(** What [sarama.NewConfig()] returns, for the fields above. *)
Definition saramaDefaults : SaramaConfig :=
  mkSaramaConfig 1 false true 3 (10 * Second) 1000000 NewHashPartitioner [0; 8; 2; 0].

(** Messages without content, and a key function. *)
Definition noData : Message -> bytes := fun _ => [].

Definition keyOf : Message -> bytes :=
  fun m => match m with
           | Foreign 1 => [Byte.x01]
           | _ => [Byte.x00]
           end.

Definition plainConfig : Config.AsyncMessageSinkConfig :=
  Config.mkAsyncMessageSinkConfig ["broker:9092"] "topic" 0 None None.

Definition keyedConfig : Config.AsyncMessageSinkConfig :=
  Config.mkAsyncMessageSinkConfig ["broker:9092"] "topic" 0 (Some keyOf) None.

Definition sinkOf (config : Config.AsyncMessageSinkConfig) : AsyncMessageSink :=
  mkAsyncMessageSink
    (mkClient (buildSaramaProducerConfig config saramaDefaults 104857600).1)
    (Config.Topic config) (Config.KeyFunc config).

(** A producer that opens and closes without error, and one whose close
    reports an error. *)
Definition quietProducer : Producer := mkProducer None None.
Definition failingClose : Producer := mkProducer None (Some 9).

(** One message is handed over, succeeds, and is forwarded. *)
Definition forwardedOnce : list Event :=
  [RecvMessage (Foreign 1); BrokerSuccess 0; ForwarderRecv; ForwarderSend].

(** The goroutine has taken a success and is about to send it on [acks] when
    the select takes a broker error. *)
Definition heldAtError : list Event :=
  [RecvMessage (Foreign 1); BrokerSuccess 0; ForwarderRecv].

(** Two messages are handed over; the second succeeds first; both successes
    are sent on. *)
Definition secondFirst : list Event :=
  [RecvMessage (Foreign 2); RecvMessage (Foreign 1); BrokerSuccess 1; BrokerSuccess 0;
   ForwarderRecv; ForwarderSend; ForwarderRecv; ForwarderSend].

(** A message is handed over and succeeds; the call is cancelled before the
    goroutine has taken the success. *)
Definition cancelledBeforeForwarding : list Event :=
  [RecvMessage (Foreign 1); BrokerSuccess 0; CtxDone].

(** C6, as the claim has it, fails: the broker has signalled the success of
    the one request, built for the message taken from [messages], and the
    call has returned without error, yet the message is not on the
    acknowledgment stream: the success waits in the channel for a goroutine
    that the return does not wait for. *)
Lemma success_signalled_not_acknowledged :
  offered cancelledBeforeForwarding = [Foreign 1] /\
  signalled (PublishMessages noData (sinkOf plainConfig) quietProducer
               cancelledBeforeForwarding) = [0] /\
  returned (PublishMessages noData (sinkOf plainConfig) quietProducer
              cancelledBeforeForwarding) = Some None /\
  acks (PublishMessages noData (sinkOf plainConfig) quietProducer
          cancelledBeforeForwarding) = [] /\
  occurrences (Foreign 1)
    (acks (PublishMessages noData (sinkOf plainConfig) quietProducer
             cancelledBeforeForwarding)) <> 1.
Proof.
  split; [reflexivity|]. split; [reflexivity|]. split; [reflexivity|].
  split; [reflexivity|]. vm_compute. discriminate.
Qed.

Lemma success_acknowledged_once_witness :
  (occurrences (Foreign 2) (offered secondFirst) = 1 /\
   offered secondFirst !! 0 = Some (Foreign 2) /\
   0 ∈ signalled (PublishMessages noData (sinkOf plainConfig) quietProducer secondFirst) /\
   0 ∉ pending (PublishMessages noData (sinkOf plainConfig) quietProducer secondFirst)) /\
  acks (PublishMessages noData (sinkOf plainConfig) quietProducer secondFirst)
    = [Foreign 1; Foreign 2] /\
  occurrences (Foreign 2)
    (acks (PublishMessages noData (sinkOf plainConfig) quietProducer secondFirst)) = 1.
Proof.
  assert (H1 : occurrences (Foreign 2) (offered secondFirst) = 1) by reflexivity.
  assert (H2 : offered secondFirst !! 0 = Some (Foreign 2)) by reflexivity.
  assert (H3 : 0 ∈ signalled (PublishMessages noData (sinkOf plainConfig) quietProducer
                               secondFirst))
    by (vm_compute; right; left).
  assert (H4 : 0 ∉ pending (PublishMessages noData (sinkOf plainConfig) quietProducer
                              secondFirst))
    by (vm_compute; apply not_elem_of_nil).
  split; [by repeat split|]. split; [reflexivity|].
  exact (proj2 (proj2 (proj2 (proj2 (success_acknowledged_once noData (sinkOf plainConfig)
                                       quietProducer secondFirst))))
           (Foreign 2) 0 H1 H2 H3 H4).
Defined.

(** C7, as the claim has it, fails: the call returns the broker's error while
    the goroutine holds a success, and the goroutine sends its token on the
    acknowledgment stream after the return. *)
Lemma ack_emitted_after_error_return :
  returned (PublishMessages noData (sinkOf plainConfig) quietProducer
              (heldAtError ++ [RecvError 3])) = Some (Some (BrokerError 3)) /\
  acks (PublishMessages noData (sinkOf plainConfig) quietProducer
          (heldAtError ++ [RecvError 3])) = [] /\
  acks (PublishMessages noData (sinkOf plainConfig) quietProducer
          (heldAtError ++ [RecvError 3; ForwarderSend])) = [Foreign 1].
Proof. repeat split; reflexivity. Qed.

Lemma broker_error_returns_it_witness :
  (returned (PublishMessages noData (sinkOf plainConfig) quietProducer heldAtError) = None /\
   panicked (PublishMessages noData (sinkOf plainConfig) quietProducer heldAtError) = false) /\
  returned (PublishMessages noData (sinkOf plainConfig) quietProducer
              (heldAtError ++ [RecvError 3; ForwarderSend])) = Some (Some (BrokerError 3)).
Proof.
  split; [by split|].
  exact (proj1 (broker_error_returns_it noData (sinkOf plainConfig) quietProducer
                  heldAtError 3 [ForwarderSend] eq_refl eq_refl)).
Defined.

(** C8, as the claim has it, fails: a cancelled call whose producer fails to
    close returns the error of the close (line 70). *)
Lemma cancellation_returns_producer_close_error :
  returned (PublishMessages noData (sinkOf plainConfig) failingClose [CtxDone]) =
    Some (Some (BrokerError 9)) /\
  returned (PublishMessages noData (sinkOf plainConfig) failingClose [CtxDone]) <> Some None.
Proof. split; [reflexivity|discriminate]. Qed.

Lemma cancellation_returns_producer_close_result_witness :
  (returned (PublishMessages noData (sinkOf plainConfig) quietProducer heldAtError) = None /\
   panicked (PublishMessages noData (sinkOf plainConfig) quietProducer heldAtError) = false) /\
  returned (PublishMessages noData (sinkOf plainConfig) quietProducer
              (heldAtError ++ [CtxDone; ForwarderSend])) = Some None.
Proof.
  split; [by split|].
  exact (proj1 (proj2 (cancellation_returns_producer_close_result noData
                         (sinkOf plainConfig) quietProducer heldAtError [ForwarderSend]
                         eq_refl eq_refl))).
Defined.

(** C9. For every sink made by [NewAsyncMessageSink]: with a key function in
    the configuration, the producer's partitioner is the hash partitioner and
    the request at every address carries the key the function gives for the
    message the select took from [messages] at that position, which is also
    the request's token; without one, the partitioner is round-robin and no
    request carries a key. *)
Theorem key_function_decides_partitioning newClientErr dflt MaxRequestSize config ams :
  NewAsyncMessageSink newClientErr dflt MaxRequestSize config = (Some ams, None) ->
  (forall f, Config.KeyFunc config = Some f ->
     Producer_Partitioner (conf (client ams)) = NewHashPartitioner /\
     forall Data producer evs,
       Forall (fun pm => Key pm = Some (f (Metadata pm)))
              (input (PublishMessages Data ams producer evs)) /\
       forall i pm,
         input (PublishMessages Data ams producer evs) !! i = Some pm ->
         exists m, offered evs !! i = Some m /\ Metadata pm = m /\ Key pm = Some (f m)) /\
  (Config.KeyFunc config = None ->
     Producer_Partitioner (conf (client ams)) = NewRoundRobinPartitioner /\
     forall Data producer evs,
       Forall (fun pm => Key pm = None)
              (input (PublishMessages Data ams producer evs)) /\
       forall i pm,
         input (PublishMessages Data ams producer evs) !! i = Some pm ->
         exists m, offered evs !! i = Some m /\ Metadata pm = m /\ Key pm = None).
Proof.
  unfold NewAsyncMessageSink. destruct newClientErr as [code|]; [discriminate|].
  intros E. injection E as <-. simpl. split.
  - intros f Hf. rewrite Hf. split; [done|]. intros Data producer evs. split.
    + eapply Forall_impl; [apply (inv_built _ _ _ (PublishMessages_Inv Data _ producer evs))|].
      intros pm ->. reflexivity.
    + intros i pm Hpm.
      destruct (input_from_offered Data _ producer evs i pm Hpm) as (m & Hm & ->).
      exists m. by repeat split.
  - intros Hf. rewrite Hf. split; [done|]. intros Data producer evs. split.
    + eapply Forall_impl; [apply (inv_built _ _ _ (PublishMessages_Inv Data _ producer evs))|].
      intros pm ->. reflexivity.
    + intros i pm Hpm.
      destruct (input_from_offered Data _ producer evs i pm Hpm) as (m & Hm & ->).
      exists m. by repeat split.
Qed.

Lemma key_function_decides_partitioning_witness :
  (NewAsyncMessageSink None saramaDefaults 104857600 keyedConfig = (Some (sinkOf keyedConfig), None) /\
   Config.KeyFunc keyedConfig = Some keyOf) /\
  Producer_Partitioner (conf (client (sinkOf keyedConfig))) = NewHashPartitioner /\
  offered secondFirst = [Foreign 2; Foreign 1] /\
  Key <$> input (PublishMessages noData (sinkOf keyedConfig) quietProducer secondFirst)
    = [Some (keyOf (Foreign 2)); Some (keyOf (Foreign 1))] /\
  keyOf (Foreign 2) <> keyOf (Foreign 1).
Proof.
  split; [by split|].
  destruct (proj1 (key_function_decides_partitioning None saramaDefaults 104857600
                     keyedConfig (sinkOf keyedConfig) eq_refl) keyOf eq_refl) as [Hp _].
  split; [exact Hp|]. split; [reflexivity|]. split; [reflexivity|]. discriminate.
Defined.

(** *** Further examples *)

(** A producer that cannot be made. *)
Definition noProducer : Producer := mkProducer (Some 4) None.

Lemma requests_in_order_of_receipt_witness :
  (returned (PublishMessages noData (sinkOf keyedConfig) quietProducer
               [RecvMessage (Foreign 2); BrokerSuccess 0; RecvMessage (Foreign 1)]) = None /\
   panicked (PublishMessages noData (sinkOf keyedConfig) quietProducer
               [RecvMessage (Foreign 2); BrokerSuccess 0; RecvMessage (Foreign 1)]) = false) /\
  Metadata <$> input (PublishMessages noData (sinkOf keyedConfig) quietProducer
                        [RecvMessage (Foreign 2); BrokerSuccess 0; RecvMessage (Foreign 1)])
    = [Foreign 2; Foreign 1].
Proof.
  split; [by split|].
  exact (proj2 (proj2 (requests_in_order_of_receipt noData (sinkOf keyedConfig) quietProducer
                         [RecvMessage (Foreign 2); BrokerSuccess 0; RecvMessage (Foreign 1)])
                      eq_refl eq_refl)).
Defined.

Lemma crashes_only_on_nil_message_witness :
  (RecvMessage NilMessage ∉ forwardedOnce) /\
  panicked (PublishMessages noData (sinkOf plainConfig) quietProducer forwardedOnce) = false.
Proof.
  assert (H : RecvMessage NilMessage ∉ forwardedOnce).
  { unfold forwardedOnce. intros Hin.
    repeat (apply elem_of_cons in Hin as [Hin|Hin]; [discriminate|]).
    by apply not_elem_of_nil in Hin. }
  split; [exact H|].
  exact (crashes_only_on_nil_message noData (sinkOf plainConfig) quietProducer forwardedOnce H).
Defined.

Lemma producer_creation_failure_witness :
  NewProducerErr noProducer = Some 4 /\
  returned (PublishMessages noData (sinkOf plainConfig) noProducer forwardedOnce)
    = Some (Some (BrokerError 4)) /\
  acks (PublishMessages noData (sinkOf plainConfig) noProducer forwardedOnce) = [].
Proof.
  split; [reflexivity|].
  rewrite (producer_creation_failure noData (sinkOf plainConfig) noProducer 4 forwardedOnce
             eq_refl).
  by split.
Defined.

(** X14. For every sink made by [NewAsyncMessageSink], every request handed
    to the broker carries the configured topic, and as its payload the
    [Data] of the very message it carries as its token. *)
Theorem requests_carry_topic_and_payload newClientErr dflt MaxRequestSize config ams
    Data producer evs :
  NewAsyncMessageSink newClientErr dflt MaxRequestSize config = (Some ams, None) ->
  Forall (fun pm => Sarama.Topic pm = Config.Topic config /\
                    Value pm = Data (Metadata pm))
         (input (PublishMessages Data ams producer evs)).
Proof.
  unfold NewAsyncMessageSink. destruct newClientErr as [code|]; [discriminate|].
  intros E. injection E as <-.
  eapply Forall_impl; [apply (inv_built _ _ _ (PublishMessages_Inv Data _ producer evs))|].
  intros pm ->. by split.
Qed.

Lemma requests_carry_topic_and_payload_witness :
  NewAsyncMessageSink None saramaDefaults 104857600 keyedConfig
    = (Some (sinkOf keyedConfig), None) /\
  Forall (fun pm => Sarama.Topic pm = "topic" /\ Value pm = noData (Metadata pm))
         (input (PublishMessages noData (sinkOf keyedConfig) quietProducer forwardedOnce)).
Proof.
  split; [reflexivity|].
  exact (requests_carry_topic_and_payload None saramaDefaults 104857600 keyedConfig
           (sinkOf keyedConfig) noData quietProducer forwardedOnce eq_refl).
Defined.

(** *** The request size limit *)

Lemma int32_id x : (- 2 ^ 31 <= x < 2 ^ 31)%Z -> int32 x = x.
Proof. intros Hx. unfold int32. rewrite Z.mod_small; lia. Qed.

Lemma int32_wrap x : (2 ^ 31 <= x < 2 ^ 32)%Z -> int32 x = (x - 2 ^ 32)%Z.
Proof.
  intros Hx. unfold int32.
  replace (x + 2 ^ 31)%Z with ((x - 2 ^ 31) + 1 * 2 ^ 32)%Z by lia.
  rewrite Z.mod_add by lia. rewrite Z.mod_small; lia.
Qed.

(** A sink configuration asking for messages of up to 200 MB. *)
Definition largeMessages : Config.AsyncMessageSinkConfig :=
  Config.mkAsyncMessageSinkConfig ["broker:9092"] "topic" 200000000 None None.

(** A sink configuration asking for messages of up to 3 GiB. *)
Definition hugeMessages : Config.AsyncMessageSinkConfig :=
  Config.mkAsyncMessageSinkConfig ["broker:9092"] "topic" 3221225472 None None.

(** X12. For a configured [MaxMessageBytes] that fits an [int32]: a
    non-zero one becomes the producer's limit and [sarama.MaxRequestSize]
    becomes the larger of its old value and that limit, so it is never
    lowered and covers the limit; zero leaves both as they were. *)
Theorem max_request_size_covers_message_bytes ams dflt MaxRequestSize :
  (- 2 ^ 31 <= Config.MaxMessageBytes ams < 2 ^ 31)%Z ->
  (Config.MaxMessageBytes ams <> 0%Z ->
   Producer_MaxMessageBytes (buildSaramaProducerConfig ams dflt MaxRequestSize).1
     = Config.MaxMessageBytes ams /\
   (buildSaramaProducerConfig ams dflt MaxRequestSize).2
     = Z.max MaxRequestSize (Config.MaxMessageBytes ams) /\
   (Producer_MaxMessageBytes (buildSaramaProducerConfig ams dflt MaxRequestSize).1
      <= (buildSaramaProducerConfig ams dflt MaxRequestSize).2)%Z) /\
  (Config.MaxMessageBytes ams = 0%Z ->
   Producer_MaxMessageBytes (buildSaramaProducerConfig ams dflt MaxRequestSize).1
     = Producer_MaxMessageBytes dflt /\
   (buildSaramaProducerConfig ams dflt MaxRequestSize).2 = MaxRequestSize) /\
  (MaxRequestSize <= (buildSaramaProducerConfig ams dflt MaxRequestSize).2)%Z.
Proof.
  intros Hrange. unfold buildSaramaProducerConfig. simpl.
  destruct (decide (Config.MaxMessageBytes ams <> 0%Z)) as [Hne|Hz].
  - destruct (decide (Config.MaxMessageBytes ams > MaxRequestSize)%Z) as [Hgt|Hle].
    + rewrite (int32_id _ Hrange). repeat split; try done; lia.
    + repeat split; try done; lia.
  - apply dec_stable in Hz. repeat split; try done; lia.
Qed.

Lemma max_request_size_covers_message_bytes_witness :
  ((- 2 ^ 31 <= Config.MaxMessageBytes largeMessages < 2 ^ 31)%Z /\
   Config.MaxMessageBytes largeMessages <> 0%Z) /\
  (buildSaramaProducerConfig largeMessages saramaDefaults 104857600).2 = 200000000%Z.
Proof.
  assert (Hr : (- 2 ^ 31 <= Config.MaxMessageBytes largeMessages < 2 ^ 31)%Z)
    by (simpl; lia).
  assert (Hn : Config.MaxMessageBytes largeMessages <> 0%Z) by discriminate.
  split; [by split|].
  exact (proj1 (proj2 (proj1 (max_request_size_covers_message_bytes largeMessages
                                saramaDefaults 104857600 Hr) Hn))).
Defined.

(** X13. For a configured [MaxMessageBytes] of 2 GiB up to 4 GiB (an [int]
    of 64 bits that does not fit an [int32]) the conversion truncates:
    [sarama.MaxRequestSize] becomes that size less 2^32, a negative number
    below the producer's message limit. *)
Theorem max_request_size_truncated ams dflt MaxRequestSize :
  (2 ^ 31 <= Config.MaxMessageBytes ams < 2 ^ 32)%Z ->
  (MaxRequestSize < 2 ^ 31)%Z ->
  (buildSaramaProducerConfig ams dflt MaxRequestSize).2
    = (Config.MaxMessageBytes ams - 2 ^ 32)%Z /\
  ((buildSaramaProducerConfig ams dflt MaxRequestSize).2 < 0)%Z /\
  ((buildSaramaProducerConfig ams dflt MaxRequestSize).2
     < Producer_MaxMessageBytes (buildSaramaProducerConfig ams dflt MaxRequestSize).1)%Z.
Proof.
  intros Hrange Hmrs. unfold buildSaramaProducerConfig. simpl.
  rewrite !decide_True by lia.
  rewrite (int32_wrap _ Hrange). repeat split; lia.
Qed.

Lemma max_request_size_truncated_witness :
  ((2 ^ 31 <= Config.MaxMessageBytes hugeMessages < 2 ^ 32)%Z /\
   (104857600 < 2 ^ 31)%Z) /\
  (buildSaramaProducerConfig hugeMessages saramaDefaults 104857600).2 = (-1073741824)%Z.
Proof.
  assert (Hr : (2 ^ 31 <= Config.MaxMessageBytes hugeMessages < 2 ^ 32)%Z)
    by (simpl; lia).
  assert (Hm : (104857600 < 2 ^ 31)%Z) by lia.
  split; [by split|].
  exact (proj1 (max_request_size_truncated hugeMessages saramaDefaults 104857600 Hr Hm)).
Defined.

End Publisher.
